(** * serverless-client-s3: the client deployment plugin ([src/index.js])

    A shallow embedding of the [Client] class: the validation step, the
    promise chain that reconciles the bucket, and the callback-driven
    directory upload, together with the properties of the specification
    that concern them.

    Conventions of the embedding.
    - A promise chain is a computation in a state-and-error monad: a
      rejected promise skips every later [.then], since the source has
      no [.catch].
    - Node's event loop is a pool of I/O operations in flight; a step of
      the loop completes any one of them and runs its callback.
    - [serverless.cli.log] lines are not part of the model. *)

From Stdlib Require Import String Ascii.
From stdpp Require Import base option list gmap strings pretty relations.

Set Warnings "-register-all".

(** ** JavaScript string primitives used by the source *)

Module Js.

(** [s.substr(n)]: the characters of [s] from index [n] on. *)
Fixpoint substr (n : nat) (s : string) : string :=
  match n, s with
  | O, _ => s
  | S _, EmptyString => EmptyString
  | S n', String _ s' => substr n' s'
  end.

(** [s.replace(pat, rep)] with a string pattern: only the first
    occurrence of [pat] is replaced.  Neither replacement string in the
    source holds a dollar sign, so no replacement pattern is expanded. *)
Fixpoint replace (pat rep s : string) : string :=
  if String.prefix pat s then rep +:+ substr (String.length pat) s
  else match s with
       | EmptyString => EmptyString
       | String c s' => String c (replace pat rep s')
       end.

(** [c.toLowerCase()] on the ASCII letters. *)
Definition lower (c : ascii) : ascii :=
  let n := nat_of_ascii c in
  if (65 <=? n)%nat && (n <=? 90)%nat then ascii_of_nat (n + 32) else c.

Fixpoint toLowerCase (s : string) : string :=
  match s with
  | EmptyString => EmptyString
  | String c s' => String (lower c) (toLowerCase s')
  end.

(** Truthiness of a value that is either [undefined] or a string. *)
Definition truthy (v : option string) : bool :=
  match v with
  | Some s => negb (String.eqb s "")
  | None => false
  end.

End Js.

(** The backslash, the forward slash and the double quote. *)
Definition backslash : string := String (ascii_of_nat 92) EmptyString.
Definition slash : string := "/".
Definition dquote : string := String (ascii_of_nat 34) EmptyString.

(** ** The host platform: Node's [path] module

    [path.join] is applied by the source to an absolute, normalised
    directory and to single path segments (the literals ['client'] and
    ['dist'], and the names that [fs.readdir] returns), where it is
    concatenation with the platform separator. *)

Class Platform := { sep : string }.

Definition posix : Platform := {| sep := slash |}.
Definition win32 : Platform := {| sep := backslash |}.

Definition path_join `{Platform} (dir segment : string) : string :=
  dir +:+ sep +:+ segment.

(** ** The local file system

    What the file system holds at a path, as the three calls of the
    source observe it: [File c] is an entry whose [stat] is not a
    directory, [c] being its contents when [fs.readFile] succeeds;
    [Dir r es] is a directory, listed by [fs.readdir] when [r] holds;
    [Broken] is a path whose [fs.stat] fails. *)

Definition Buffer : Type := list Byte.byte.

Inductive FsNode : Type :=
| File (contents : option Buffer)
| Dir (readable : bool) (entries : list (string * FsNode))
| Broken.

Definition FileSystem : Type := string -> FsNode.

Inductive FsError : Type := ENOENT | EACCES | ENOTDIR | EISDIR.

Record Stats : Type := { isDirectory : bool }.

(** [fs.stat(path, cb)]: the arguments [(err, stats)] given to [cb]. *)
Definition fs_stat (node : FsNode) : option FsError * option Stats :=
  match node with
  | File _ => (None, Some {| isDirectory := false |})
  | Dir _ _ => (None, Some {| isDirectory := true |})
  | Broken => (Some ENOENT, None)
  end.

(** [fs.readdir(path, cb)]: the arguments [(err, files)]; each name
    comes with the node it designates. *)
Definition fs_readdir (node : FsNode)
  : option FsError * option (list (string * FsNode)) :=
  match node with
  | Dir true es => (None, Some es)
  | Dir false _ => (Some EACCES, None)
  | File _ => (Some ENOTDIR, None)
  | Broken => (Some ENOENT, None)
  end.

(** [fs.readFile(path, cb)]: the arguments [(err, fileBuffer)]. *)
Definition fs_readFile (node : FsNode) : option FsError * option Buffer :=
  match node with
  | File (Some b) => (None, Some b)
  | File None => (Some EACCES, None)
  | Dir _ _ => (Some EISDIR, None)
  | Broken => (Some ENOENT, None)
  end.

(** [Utils.dirExistsSync] of the host framework: a [statSync] that
    answers [false] when it throws. *)
Definition dirExistsSync (node : FsNode) : bool :=
  match snd (fs_stat node) with
  | Some stats => isDirectory stats
  | None => false
  end.

(** ** Promises *)

Inductive Rejection : Type :=
| ServerlessError (message : string)
| AwsError (code : string)
| TypeError (message : string).

Inductive Result (A : Type) : Type :=
| Resolved (a : A)
| Rejected (e : Rejection).

Arguments Resolved {A} a.
Arguments Rejected {A} e.

Definition is_resolved {A} (r : Result A) : bool :=
  match r with Resolved _ => true | Rejected _ => false end.

(** The two errors of [_validateAndPrepare], under the names the
    specification gives them. *)
Definition MissingBuildOutput : Rejection :=
  ServerlessError
    ("Could not find " +:+ dquote +:+ "client/dist" +:+ dquote
       +:+ " folder in your project root.").

Definition MissingConfiguration : Rejection :=
  ServerlessError
    "Please specify a bucket name for the client in serverless.yml.".

(** ** The S3 requests of the source *)

Record BucketInfo : Type := { Name : string; CreationDate : string }.

Record S3Object : Type := { Key : string; ETag : string; Size : N }.

(** [_.pick(content, 'Key')]: the object [{Key: ...}]. *)
Record ObjectIdentifier : Type := { IdKey : string }.

Definition pick_Key (content : S3Object) : ObjectIdentifier :=
  {| IdKey := Key content |}.

Record WebsiteConfiguration : Type :=
  { IndexDocument_Suffix : string; ErrorDocument_Key : string }.

Record Statement : Type :=
  { Sid : string; Effect : string; Principal_AWS : string;
    Action : string; Resource : string }.

(** The policy object; [JSON.stringify] of it is what is sent, and is
    kept here as the object it serialises. *)
Record PolicyDocument : Type :=
  { Version : string; Id : string; Statements : list Statement }.

Inductive Request : Type :=
| ListBuckets
| ListObjects (Bucket : string)
| DeleteObjects (Bucket : string) (Objects : list ObjectIdentifier)
| CreateBucket (Bucket : string)
| PutBucketWebsite (Bucket : string) (config : WebsiteConfiguration)
| PutBucketPolicy (Bucket : string) (Policy : PolicyDocument)
| PutObject (Bucket Key : string) (Body : option Buffer)
    (ContentType : string).

(** The object store as the client sees it: each operation answers and
    moves the store to its next state. *)
Class ObjectStore (S : Type) : Type := {
  s3_listBuckets : S -> Result (list BucketInfo) * S;
  s3_listObjects : string -> S -> Result (list S3Object) * S;
  s3_deleteObjects : string -> list ObjectIdentifier -> S -> Result unit * S;
  s3_createBucket : string -> S -> Result unit * S;
  s3_putBucketWebsite : string -> WebsiteConfiguration -> S -> Result unit * S;
  s3_putBucketPolicy : string -> PolicyDocument -> S -> Result unit * S;
  s3_putObject : string -> string -> option Buffer -> string -> S
                 -> Result unit * S
}.

(** ** Content types

    Modelled from the spec: [mime.lookup] of the [mime] package, a
    dependency of the plugin that is not under src/.  The contentType is
    resolved from the file's extension with a standard media-type lookup
    table and falls back to a generic binary type when the extension is
    unrecognized.  The extension is what follows the last dot or path
    separator, in lower case; the table below is the part of the
    package's table that a static site uses. *)

Definition is_ext_delim (c : ascii) : bool :=
  let n := nat_of_ascii c in
  (n =? 46)%nat || (n =? 47)%nat || (n =? 92)%nat.

Fixpoint after_last_delim (s : string) : option string :=
  match s with
  | EmptyString => None
  | String c s' =>
      match after_last_delim s' with
      | Some rest => Some rest
      | None => if is_ext_delim c then Some s' else None
      end
  end.

Definition extension (path : string) : string :=
  Js.toLowerCase (default path (after_last_delim path)).

Definition mime_types : gmap string string :=
  list_to_map
    [ ("html", "text/html"); ("htm", "text/html"); ("css", "text/css");
      ("js", "application/javascript"); ("json", "application/json");
      ("txt", "text/plain"); ("xml", "application/xml");
      ("png", "image/png"); ("jpg", "image/jpeg"); ("jpeg", "image/jpeg");
      ("gif", "image/gif"); ("svg", "image/svg+xml");
      ("ico", "image/x-icon"); ("woff", "application/font-woff");
      ("pdf", "application/pdf") ].

Definition default_type : string := "application/octet-stream".

Definition mime_lookup (path : string) : string :=
  default default_type (mime_types !! extension path).

(** ** The plugin object and the world it acts on *)

(** The host's view of [serverless.yml]: [service.custom] with its
    [client.bucketName], each of which may be absent. *)
Record ClientSettings : Type := { cfg_bucketName : option string }.
Record Custom : Type := { custom_client : option ClientSettings }.
Record Serverless : Type :=
  { servicePath : string; custom : option Custom }.

(** The fields that the methods assign on [this].  [bucketExists] is
    assigned by no constructor: it is [undefined], which is falsy, until
    [listBuckets] sets it, and nothing ever clears it. *)
Record Client : Type :=
  { bucketName : string; clientPath : string; bucketExists : bool }.

Definition set_bucketExists (b : bool) (c : Client) : Client :=
  {| bucketName := bucketName c; clientPath := clientPath c;
     bucketExists := b |}.

(** What is observable from outside the process. *)
Inductive Event : Type :=
| Sent (r : Request)
| Settled (r : Request) (ok : bool)
| Uncaught (e : Rejection).

(** Operations in flight, each with the callback arguments of the
    source and the file-system node the operation will observe. *)
Inductive Task : Type :=
| Readdir (directoryPath : string) (node : FsNode)
| Stat (path : string) (node : FsNode)
| ReadFile (filePath fileKey : string) (node : FsNode)
| Put (Bucket Key : string) (Body : option Buffer) (ContentType : string).

Record World (S : Type) : Type :=
  { store : S; events : list Event; pool : list Task; crashed : bool }.

Arguments store {S} w.
Arguments events {S} w.
Arguments pool {S} w.
Arguments crashed {S} w.

Definition emit {S} (es : list Event) (w : World S) : World S :=
  {| store := store w; events := events w ++ es; pool := pool w;
     crashed := crashed w |}.

Definition spawn {S} (ts : list Task) (w : World S) : World S :=
  {| store := store w; events := events w; pool := pool w ++ ts;
     crashed := crashed w |}.

Definition set_pool {S} (ts : list Task) (w : World S) : World S :=
  {| store := store w; events := events w; pool := ts;
     crashed := crashed w |}.

Definition set_store {S} (s : S) (w : World S) : World S :=
  {| store := s; events := events w; pool := pool w;
     crashed := crashed w |}.

(** An exception that leaves a callback of the event loop ends the
    process. *)
Definition uncaught {S} (e : Rejection) (w : World S) : World S :=
  {| store := store w; events := events w ++ [Uncaught e]; pool := pool w;
     crashed := true |}.

Definition boot {S} (s : S) : World S :=
  {| store := s; events := []; pool := []; crashed := false |}.

(** The requests of a trace, in the order they were sent. *)
Definition sent (es : list Event) : list Request :=
  omap (fun e => match e with Sent r => Some r | _ => None end) es.

Definition is_PutObject (r : Request) : bool :=
  match r with PutObject _ _ _ _ => true | _ => false end.

Definition is_DeleteObjects (r : Request) : bool :=
  match r with DeleteObjects _ _ => true | _ => false end.

Definition is_ListObjects (r : Request) : bool :=
  match r with ListObjects _ => true | _ => false end.

Definition is_CreateBucket (r : Request) : bool :=
  match r with CreateBucket _ => true | _ => false end.

(** ** The methods of [Client] *)

Section Plugin.
Context {platform : Platform} {S : Type} {service : ObjectStore S}.

(** A promise chain over the plugin object and the world. *)
Definition Chain (A : Type) : Type :=
  Client -> World S -> Result A * Client * World S.

#[local] Instance chain_ret : MRet Chain :=
  fun A a c w => (Resolved a, c, w).

(** [m.then(f)]: [f] runs when [m] resolves; a rejection passes by. *)
#[local] Instance chain_bind : MBind Chain :=
  fun A B f m c w =>
    match m c w with
    | (Resolved a, c', w') => f a c' w'
    | (Rejected e, c', w') => (Rejected e, c', w')
    end.

Definition get_this : Chain Client := fun c w => (Resolved c, c, w).

Definition throw {A} (e : Rejection) : Chain A :=
  fun c w => (Rejected e, c, w).

(** A synchronous call that returns [undefined]. *)
Definition call (f : World S -> World S) : Chain unit :=
  fun c w => (Resolved tt, c, f w).

(** [this.s3.<operation>(params).promise()]. *)
Definition request {A} (r : Request) (op : S -> Result A * S) : Chain A :=
  fun c w =>
    let '(res, s') := op (store w) in
    (res, c, emit [Sent r; Settled r (is_resolved res)] (set_store s' w)).

(** [_validateAndPrepare], as the hook calls it on the object that the
    constructor has just built: the build directory, then the bucket
    name.  It assigns [bucketName] and [clientPath]; [bucketExists] has
    not been assigned on that object, which is what [false] stands for
    in the result. *)
Definition _validateAndPrepare (serverless : Serverless) (fs : FileSystem)
  : Result Client :=
  let dist := path_join (path_join (servicePath serverless) "client") "dist" in
  if negb (dirExistsSync (fs dist)) then Rejected MissingBuildOutput
  else
    match custom serverless with
    | None => Rejected MissingConfiguration
    | Some cust =>
        match custom_client cust with
        | None => Rejected MissingConfiguration
        | Some settings =>
            if negb (Js.truthy (cfg_bucketName settings))
            then Rejected MissingConfiguration
            else Resolved {| bucketName := default "" (cfg_bucketName settings);
                             clientPath := dist;
                             bucketExists := false |}
        end
    end.

(** The [listBuckets] callback: [data.Buckets.forEach]. *)
Definition listBuckets (data : list BucketInfo) : Chain unit :=
  fun c w =>
    (Resolved tt,
     foldl (fun this bucket =>
              if String.eqb (Name bucket) (bucketName this)
              then set_bucketExists true this
              else this)
           c data,
     w).

Definition listObjectsInBucket : Chain (option (list S3Object)) :=
  this ← get_this;
  if negb (bucketExists this) then mret None
  else
    data ← request (ListObjects (bucketName this))
                   (s3_listObjects (bucketName this));
    mret (Some data).

Definition deleteObjectsFromBucket (data : option (list S3Object))
  : Chain unit :=
  this ← get_this;
  if negb (bucketExists this) then mret tt
  else
    match data with
    | None => throw (TypeError "Cannot read property 'Contents' of undefined")
    | Some Contents =>
        match Contents !! 0%nat with
        | None => mret tt
        | Some _ =>
            let Objects := pick_Key <$> Contents in
            request (DeleteObjects (bucketName this) Objects)
                    (s3_deleteObjects (bucketName this) Objects)
        end
    end.

Definition createBucket : Chain unit :=
  this ← get_this;
  if bucketExists this then mret tt
  else request (CreateBucket (bucketName this))
               (s3_createBucket (bucketName this)).

Definition website_config : WebsiteConfiguration :=
  {| IndexDocument_Suffix := "index.html"; ErrorDocument_Key := "error.html" |}.

Definition configureBucket : Chain unit :=
  this ← get_this;
  request (PutBucketWebsite (bucketName this) website_config)
          (s3_putBucketWebsite (bucketName this) website_config).

Definition bucket_policy (name : string) : PolicyDocument :=
  {| Version := "2008-10-17";
     Id := "Policy1392681112290";
     Statements :=
       [ {| Sid := "Stmt1392681101677";
            Effect := "Allow";
            Principal_AWS := "*";
            Action := "s3:GetObject";
            Resource := "arn:aws:s3:::" +:+ name +:+ "/*" |} ] |}.

Definition configurePolicyForBucket : Chain unit :=
  this ← get_this;
  let policy := bucket_policy (bucketName this) in
  request (PutBucketPolicy (bucketName this) policy)
          (s3_putBucketPolicy (bucketName this) policy).

(** [_uploadDirectory]: hands [fs.readdir] to the waterfall and returns
    [undefined] at once. *)
Definition _uploadDirectory (directoryPath : string) (node : FsNode)
  (w : World S) : World S :=
  spawn [Readdir directoryPath node] w.

(** The six stages: everything of [_processDeployment] before the
    upload is started. *)
Definition reconcile : Chain unit :=
  data ← request ListBuckets s3_listBuckets;
  listBuckets data;;
  data ← listObjectsInBucket;
  deleteObjectsFromBucket data;;
  createBucket;;
  configureBucket;;
  configurePolicyForBucket.

Definition _processDeployment (fs : FileSystem) : Chain unit :=
  reconcile;;
  this ← get_this;
  call (_uploadDirectory (clientPath this) (fs (clientPath this))).

(** The hook ['client:deploy:deploy']. *)
Definition deploy (serverless : Serverless) (fs : FileSystem) (w : World S)
  : Result unit * World S :=
  match _validateAndPrepare serverless fs with
  | Rejected e => (Rejected e, w)
  | Resolved this =>
      let '(res, _, w') := _processDeployment fs this w in (res, w')
  end.

(** *** Callbacks of the upload *)

(** The second function of the waterfall, called with the names that
    [fs.readdir] gave; on an error the waterfall stops, and it was given
    no final callback. *)
Definition on_readdir (directoryPath : string) (node : FsNode)
  (w : World S) : World S :=
  match fs_readdir node with
  | (Some _, _) => w
  | (None, files) =>
      let files :=
        map (fun file => (path_join directoryPath (fst file), snd file))
            (default [] files) in
      spawn (map (fun path => Stat (fst path) (snd path)) files) w
  end.

Definition fileKey (this : Client) (filePath : string) : string :=
  Js.replace backslash slash
    (Js.substr 1 (Js.replace (clientPath this) "" filePath)).

Definition _uploadFile (this : Client) (filePath : string) (node : FsNode)
  (w : World S) : World S :=
  spawn [ReadFile filePath (fileKey this filePath) node] w.

(** The callback of [fs.stat]: [err] is not looked at. *)
Definition on_stat (this : Client) (path : string) (node : FsNode)
  (w : World S) : World S :=
  let '(err, stats) := fs_stat node in
  match stats with
  | None =>
      uncaught (TypeError "Cannot read property 'isDirectory' of undefined") w
  | Some stats =>
      if isDirectory stats
      then _uploadDirectory path node w
      else _uploadFile this path node w
  end.

(** The callback of [fs.readFile]: [err] is not looked at. *)
Definition on_readFile (this : Client) (filePath fileKey : string)
  (node : FsNode) (w : World S) : World S :=
  let '(err, fileBuffer) := fs_readFile node in
  let ContentType := mime_lookup filePath in
  spawn [Put (bucketName this) fileKey fileBuffer ContentType]
    (emit [Sent (PutObject (bucketName this) fileKey fileBuffer ContentType)] w).

(** The promise of [putObject] settles; nothing was chained on it. *)
Definition on_put (Bucket Key : string) (Body : option Buffer)
  (ContentType : string) (w : World S) : World S :=
  let '(res, s') := s3_putObject Bucket Key Body ContentType (store w) in
  emit [Settled (PutObject Bucket Key Body ContentType) (is_resolved res)]
       (set_store s' w).

Definition complete (this : Client) (t : Task) (w : World S) : World S :=
  match t with
  | Readdir directoryPath node => on_readdir directoryPath node w
  | Stat path node => on_stat this path node w
  | ReadFile filePath key node => on_readFile this filePath key node w
  | Put Bucket Key Body ContentType => on_put Bucket Key Body ContentType w
  end.

(** One turn of the event loop: any operation in flight may be the next
    to complete. *)
Inductive step (this : Client) : World S -> World S -> Prop :=
| step_complete w before t after :
    crashed w = false ->
    pool w = before ++ t :: after ->
    step this w (complete this t (set_pool (before ++ after) w)).

(** The loop under first-in first-out completion. *)
Fixpoint run_loop (fuel : nat) (this : Client) (w : World S) : World S :=
  match fuel with
  | O => w
  | Datatypes.S fuel' =>
      if crashed w then w
      else match pool w with
           | [] => w
           | t :: rest => run_loop fuel' this (complete this t (set_pool rest w))
           end
  end.

End Plugin.

(** ** The object store

    Modelled from the spec: the remote object store behind the Object
    Store Client operations (list buckets, list objects in a bucket,
    delete a batch of objects, create a bucket, set website
    configuration, set an access policy document, put a single object),
    which is a remote service and not under src/.  A bucket is a named
    container of key-addressed objects with a website configuration and
    a policy; listing returns all objects currently in the bucket; put is
    an overwrite; an operation on a bucket that is not there fails, and
    so does the creation of one that is. *)

Record StoredObject : Type :=
  { obj_body : Buffer; obj_contentType : string }.

Record Bucket : Type :=
  { objects : gmap string StoredObject;
    website : option WebsiteConfiguration;
    policy : option PolicyDocument }.

Abbreviation Store := (gmap string Bucket).

Definition new_bucket : Bucket :=
  {| objects := ∅; website := None; policy := None |}.

Definition set_objects (os : gmap string StoredObject) (b : Bucket) : Bucket :=
  {| objects := os; website := website b; policy := policy b |}.

Definition set_website (cfg : WebsiteConfiguration) (b : Bucket) : Bucket :=
  {| objects := objects b; website := Some cfg; policy := policy b |}.

Definition set_policy (doc : PolicyDocument) (b : Bucket) : Bucket :=
  {| objects := objects b; website := website b; policy := Some doc |}.

Definition no_such_bucket : Rejection := AwsError "NoSuchBucket".

Definition describe_object (entry : string * StoredObject) : S3Object :=
  {| Key := fst entry; ETag := "";
     Size := N.of_nat (length (obj_body (snd entry))) |}.

(** An operation on an existing bucket. *)
Definition on_bucket (name : string) (f : Bucket -> Bucket) (s : Store)
  : Result unit * Store :=
  match s !! name with
  | None => (Rejected no_such_bucket, s)
  | Some b => (Resolved tt, <[name := f b]> s)
  end.

Definition delete_keys (ids : list ObjectIdentifier)
  (os : gmap string StoredObject) : gmap string StoredObject :=
  foldr (fun id m => delete (IdKey id) m) os ids.

#[export] Instance store_model : ObjectStore Store := {|
  s3_listBuckets s :=
    (Resolved ((fun entry => {| Name := fst entry; CreationDate := "" |})
                 <$> map_to_list s), s);
  s3_listObjects name s :=
    match s !! name with
    | None => (Rejected no_such_bucket, s)
    | Some b => (Resolved (describe_object <$> map_to_list (objects b)), s)
    end;
  s3_deleteObjects name ids :=
    on_bucket name (fun b => set_objects (delete_keys ids (objects b)) b);
  s3_createBucket name s :=
    match s !! name with
    | Some _ => (Rejected (AwsError "BucketAlreadyOwnedByYou"), s)
    | None => (Resolved tt, <[name := new_bucket]> s)
    end;
  s3_putBucketWebsite name cfg := on_bucket name (set_website cfg);
  s3_putBucketPolicy name doc := on_bucket name (set_policy doc);
  s3_putObject name key body contentType :=
    on_bucket name
      (fun b =>
         set_objects
           (<[key := {| obj_body := default [] body;
                        obj_contentType := contentType |}]> (objects b)) b)
|}.

(** The end state that reconciliation aims at. *)
Definition reconciled (name : string) : Bucket :=
  {| objects := ∅;
     website := Some website_config;
     policy := Some (bucket_policy name) |}.

(** ** The vocabulary of the specification *)

(** The plugin object as [_validateAndPrepare] leaves it. *)
Definition fresh (name path : string) : Client :=
  {| bucketName := name; clientPath := path; bucketExists := false |}.

(** [service.custom.client.bucketName], [undefined] when any link of
    the chain is missing. *)
Definition configured_name (serverless : Serverless) : option string :=
  cust ← (custom serverless : option Custom);
  settings ← (custom_client cust : option ClientSettings);
  cfg_bucketName settings.

Definition dist_path `{Platform} (serverless : Serverless) : string :=
  path_join (path_join (servicePath serverless) "client") "dist".

(** The six stages in their order. *)
Definition stages (name : string) (ids : list ObjectIdentifier)
  : list Request :=
  [ ListBuckets; ListObjects name; DeleteObjects name ids;
    CreateBucket name; PutBucketWebsite name website_config;
    PutBucketPolicy name (bucket_policy name) ].

(** A trace in which every request is settled before the next one is
    sent, and none is sent after a failure. *)
Inductive in_sequence : list Event -> Prop :=
| in_sequence_nil : in_sequence []
| in_sequence_last r ok : in_sequence [Sent r; Settled r ok]
| in_sequence_cons r rest :
    in_sequence rest -> in_sequence (Sent r :: Settled r true :: rest).

(** The entries under a directory that are not directories, each with
    its path and what reading it gives. *)
Fixpoint files_under `{Platform} (path : string) (node : FsNode)
  : list (string * option Buffer) :=
  match node with
  | File contents => [(path, contents)]
  | Dir _ entries =>
      flat_map (fun e => files_under (path_join path (fst e)) (snd e)) entries
  | Broken => []
  end.

(** A tree in which every call of the file system succeeds. *)
Fixpoint healthy (node : FsNode) : bool :=
  match node with
  | File contents => bool_decide (is_Some contents)
  | Dir readable entries =>
      readable && forallb (fun e => healthy (snd e)) entries
  | Broken => false
  end.

(** The put-object call that the specification expects for a file. *)
Definition put_of (this : Client) (file : string * option Buffer) : Request :=
  PutObject (bucketName this) (fileKey this (fst file)) (snd file)
            (mime_lookup (fst file)).

(** The key that the specification describes: the local path with the
    root prefix and the separator after it stripped, and every path
    separator turned into a forward slash. *)
Fixpoint normalize_separators (s : string) : string :=
  match s with
  | EmptyString => EmptyString
  | String c s' =>
      String (if (nat_of_ascii c =? 92)%nat then ascii_of_nat 47 else c)
             (normalize_separators s')
  end.

Definition spec_remoteKey (root localPath : string) : string :=
  normalize_separators (Js.substr (Datatypes.S (String.length root)) localPath).

(** *** Bookkeeping for the event loop *)

(** The put-object calls that a node will give rise to once it is
    examined by [fs.stat]. *)
Fixpoint expected `{Platform} (this : Client) (path : string) (node : FsNode)
  : list Request :=
  match node with
  | File contents =>
      [PutObject (bucketName this) (fileKey this path) contents
                 (mime_lookup path)]
  | Dir true entries =>
      flat_map (fun e => expected this (path_join path (fst e)) (snd e)) entries
  | Dir false _ => []
  | Broken => []
  end.

(** The put-object calls still to come from an operation in flight. *)
Definition pending `{Platform} (this : Client) (t : Task) : list Request :=
  match t with
  | Readdir path node =>
      match node with Dir _ _ => expected this path node | _ => [] end
  | Stat path node => expected this path node
  | ReadFile filePath key node =>
      [PutObject (bucketName this) key (snd (fs_readFile node))
                 (mime_lookup filePath)]
  | Put _ _ _ _ => []
  end.

Definition puts (es : list Event) : list Request :=
  List.filter is_PutObject (sent es).

(** Turns of the loop that an operation in flight still accounts for. *)
Fixpoint weight (node : FsNode) : nat :=
  match node with
  | File _ => 2
  | Dir _ entries => Datatypes.S (list_sum (map (fun e => Datatypes.S (weight (snd e))) entries))
  | Broken => 1
  end.

Definition turns (t : Task) : nat :=
  match t with
  | Readdir _ node => weight node
  | Stat _ node => Datatypes.S (weight node)
  | ReadFile _ _ _ => 2
  | Put _ _ _ _ => 1
  end.

Definition task_healthy (t : Task) : bool :=
  match t with
  | Readdir _ node => healthy node
  | Stat _ node => healthy node
  | ReadFile _ _ node => healthy node
  | Put _ _ _ _ => true
  end.

Definition is_Put (t : Task) : bool :=
  match t with Put _ _ _ _ => true | _ => false end.

Definition is_ReadFile (t : Task) : bool :=
  match t with ReadFile _ _ _ => true | _ => false end.

Definition total_turns (ts : list Task) : nat := list_sum (map turns ts).

(** The [fs.stat] calls that [async.each] starts for the entries of a
    directory, the [fs.readFile] calls that follow them when the entries
    are files, and the put-object requests that follow those. *)
Definition stats_of `{Platform} (path : string)
  (entries : list (string * FsNode)) : list Task :=
  map (fun p => Stat (fst p) (snd p))
    (map (fun file => (path_join path (fst file), snd file)) entries).

Definition reads_of `{Platform} (this : Client) (path : string)
  (entries : list (string * FsNode)) : list Task :=
  map (fun e => ReadFile (path_join path (fst e))
                         (fileKey this (path_join path (fst e))) (snd e))
      entries.

Definition requests_of `{Platform} (this : Client) (path : string)
  (entries : list (string * FsNode)) : list Task :=
  map (fun e => Put (bucketName this)
                    (fileKey this (path_join path (fst e)))
                    (snd (fs_readFile (snd e)))
                    (mime_lookup (path_join path (fst e))))
      entries.

Definition all_files (entries : list (string * FsNode)) : bool :=
  forallb (fun e => match snd e with File _ => true | _ => false end) entries.

(** A directory of [n] readable files. *)
Definition file_entries (n : nat) : list (string * FsNode) :=
  map (fun i => (pretty i, File (Some []))) (seq 0 n).

Definition flat_directory (n : nat) : FsNode := Dir true (file_entries n).

(** A store that answers put-object requests in another way. *)
Definition with_putObject {S : Type} (service : ObjectStore S)
  (put : string -> string -> option Buffer -> string -> S -> Result unit * S)
  : ObjectStore S :=
  {| s3_listBuckets := @s3_listBuckets S service;
     s3_listObjects := @s3_listObjects S service;
     s3_deleteObjects := @s3_deleteObjects S service;
     s3_createBucket := @s3_createBucket S service;
     s3_putBucketWebsite := @s3_putBucketWebsite S service;
     s3_putBucketPolicy := @s3_putBucketPolicy S service;
     s3_putObject := put |}.

(** ** Scenarios of the specification *)

Definition bytes_of (s : string) : Buffer := list_byte_of_string s.

(** The root [dist/] with [index.html], [error.html] and [css/app.css]. *)
Definition site_tree : FsNode :=
  Dir true
    [ ("index.html", File (Some (bytes_of "<h1>home</h1>")));
      ("error.html", File (Some (bytes_of "<h1>oops</h1>")));
      ("css", Dir true [ ("app.css", File (Some (bytes_of "h1 {}"))) ]) ].

Definition site_fs : FileSystem :=
  fun path => if String.eqb path "/srv/client/dist" then site_tree else Broken.

Definition no_fs : FileSystem := fun _ => Broken.

Definition site_config : Serverless :=
  {| servicePath := "/srv";
     custom :=
       Some {| custom_client :=
                 Some {| cfg_bucketName := Some "my-bucket" |} |} |}.

Definition unnamed_config : Serverless :=
  {| servicePath := "/srv";
     custom := Some {| custom_client := Some {| cfg_bucketName := Some "" |} |} |}.

Definition site_client : Client := fresh "my-bucket" "/srv/client/dist".

(** A store whose bucket already holds [old.txt] and [stale.js]. *)
Definition stale_bucket : Bucket :=
  {| objects :=
       <["old.txt" := {| obj_body := bytes_of "old";
                         obj_contentType := "text/plain" |}]>
         (<["stale.js" := {| obj_body := bytes_of "stale";
                             obj_contentType := "application/javascript" |}]> ∅);
     website := None;
     policy := None |}.

Definition stale_store : Store := <["my-bucket" := stale_bucket]> ∅.

(** A build directory on a Windows host, three levels deep. *)
Definition windows_root : string := "C:\proj\client\dist".

Definition windows_tree : FsNode :=
  Dir true
    [ ("css", Dir true
                [ ("fonts", Dir true
                              [ ("a.woff", File (Some (bytes_of "wOFF"))) ]) ]) ].

Definition windows_client : Client := fresh "my-bucket" windows_root.

(** A tree with a dangling entry and an unreadable file. *)
Definition faulty_tree : FsNode :=
  Dir true [ ("secret.txt", File None); ("dangling", Broken) ].

(** ** Further vocabulary *)

(** The directories for which [path.join(dir, 'client', 'dist')] has
    nothing to normalise and is [dir], the separator and the two names
    put together: [dir] is not empty, does not end in a separator, and
    none of its segments is empty (the first apart, which is empty for
    an absolute path), a dot or two dots. *)
Definition is_separator `{Platform} (c : ascii) : bool :=
  String.eqb (String c EmptyString) sep || (nat_of_ascii c =? 47)%nat.

Fixpoint segments_from `{Platform} (current : string) (s : string)
  : list string :=
  match s with
  | EmptyString => [current]
  | String c s' =>
      if is_separator c
      then current :: segments_from EmptyString s'
      else segments_from (current +:+ String c EmptyString) s'
  end.

Definition plain_segment (segment : string) : bool :=
  negb (String.eqb segment "") && negb (String.eqb segment ".")
  && negb (String.eqb segment "..").

Definition plain_directory `{Platform} (dir : string) : bool :=
  match segments_from EmptyString dir with
  | [] => false
  | [only] => plain_segment only
  | first :: rest =>
      negb (String.eqb first ".") && negb (String.eqb first "..")
      && forallb plain_segment rest
  end.

(** A string without a backslash. *)
Fixpoint no_backslash (s : string) : bool :=
  match s with
  | EmptyString => true
  | String c s' => negb (nat_of_ascii c =? 92)%nat && no_backslash s'
  end.

(** The files that the walk gets to: those under readable directories;
    an unreadable directory hides what is below it. *)
Fixpoint reachable_files `{Platform} (path : string) (node : FsNode)
  : list (string * option Buffer) :=
  match node with
  | File contents => [(path, contents)]
  | Dir true entries =>
      flat_map (fun e => reachable_files (path_join path (fst e)) (snd e))
               entries
  | Dir false _ => []
  | Broken => []
  end.

(** A path whose [fs.stat] fails lies under readable directories. *)
Fixpoint reaches_broken (node : FsNode) : bool :=
  match node with
  | File _ => false
  | Dir true entries => existsb (fun e => reaches_broken (snd e)) entries
  | Dir false _ => false
  | Broken => true
  end.

Definition task_reaches_broken (t : Task) : bool :=
  match t with
  | Readdir _ (Dir true entries) =>
      existsb (fun e => reaches_broken (snd e)) entries
  | Stat _ node => reaches_broken node
  | _ => false
  end.

(** The store answering a request, without the data of the answer,
    and the state that a sequence of requests leaves it in. *)
Definition settle {A : Type} (answer : Result A) : Result unit :=
  match answer with
  | Resolved _ => Resolved tt
  | Rejected e => Rejected e
  end.

Definition perform {S : Type} `{ObjectStore S} (r : Request) (s : S)
  : Result unit * S :=
  match r with
  | ListBuckets => (settle (fst (s3_listBuckets s)), snd (s3_listBuckets s))
  | ListObjects name =>
      (settle (fst (s3_listObjects name s)), snd (s3_listObjects name s))
  | DeleteObjects name ids => s3_deleteObjects name ids s
  | CreateBucket name => s3_createBucket name s
  | PutBucketWebsite name cfg => s3_putBucketWebsite name cfg s
  | PutBucketPolicy name doc => s3_putBucketPolicy name doc s
  | PutObject name key body contentType =>
      s3_putObject name key body contentType s
  end.

Definition replay {S : Type} `{ObjectStore S} (rs : list Request) (s : S) : S :=
  foldl (fun s r => snd (perform r s)) s rs.

(** The put-object requests in flight, and those that have succeeded. *)
Definition in_flight (ts : list Task) : list Request :=
  omap (fun t => match t with
                 | Put b k body ct => Some (PutObject b k body ct)
                 | _ => None
                 end) ts.

Definition landed (es : list Event) : list Request :=
  omap (fun e => match e with
                 | Settled (PutObject b k body ct) true =>
                     Some (PutObject b k body ct)
                 | _ => None
                 end) es.

Definition put_failures (es : list Event) : list Request :=
  omap (fun e => match e with
                 | Settled (PutObject b k body ct) false =>
                     Some (PutObject b k body ct)
                 | _ => None
                 end) es.

(** What a put-object request leaves in a bucket of the store model. *)
Definition stored (r : Request) : option (string * StoredObject) :=
  match r with
  | PutObject _ k body ct =>
      Some (k, {| obj_body := default [] body; obj_contentType := ct |})
  | _ => None
  end.

Definition store_put (os : gmap string StoredObject) (r : Request)
  : gmap string StoredObject :=
  match stored r with
  | Some entry => <[fst entry := snd entry]> os
  | None => os
  end.

Definition object_of (this : Client) (file : string * option Buffer)
  : string * StoredObject :=
  (fileKey this (fst file),
   {| obj_body := default [] (snd file);
      obj_contentType := mime_lookup (fst file) |}).

Definition uploaded (this : Client) (files : list (string * option Buffer))
  : gmap string StoredObject :=
  list_to_map (object_of this <$> files).

(** A plugin object used a second time, and a tree with an unreadable
    directory. *)
Definition reused_client : Client := set_bucketExists true site_client.

Definition hidden_tree : FsNode :=
  Dir true
    [ ("index.html", File (Some (bytes_of "<h1>home</h1>")));
      ("private", Dir false [ ("key.pem", File (Some (bytes_of "k"))) ]) ].

(** What holds of the store model and the trace throughout an upload
    into a bucket that was [initial] when the upload began, in a store
    that was [s0]: the bucket holds what the requests that succeeded
    put there, in the order they succeeded; every put-object request
    sent has succeeded or is in flight; all are for the configured
    bucket; none has failed. *)
Definition targets (this : Client) (t : Task) : Prop :=
  match t with
  | Put b _ _ _ => b = bucketName this
  | _ => True
  end.

Definition during_upload (this : Client) (initial : Bucket) (s0 : Store)
  (w : World Store) : Prop :=
  store w
  = <[bucketName this :=
        {| objects := foldl store_put (objects initial) (landed (events w));
           website := website initial;
           policy := policy initial |}]> s0
  /\ landed (events w) ++ in_flight (pool w) ≡ₚ puts (events w)
  /\ Forall (targets this) (pool w)
  /\ put_failures (events w) = [].

(** A store that cannot be reached: every operation is rejected. *)
Definition unreachable : Rejection := AwsError "NetworkingError".

Definition offline : ObjectStore unit :=
  {| s3_listBuckets s := (Rejected unreachable, s);
     s3_listObjects _ s := (Rejected unreachable, s);
     s3_deleteObjects _ _ s := (Rejected unreachable, s);
     s3_createBucket _ s := (Rejected unreachable, s);
     s3_putBucketWebsite _ _ s := (Rejected unreachable, s);
     s3_putBucketPolicy _ _ s := (Rejected unreachable, s);
     s3_putObject _ _ _ _ s := (Rejected unreachable, s) |}.

(** * Properties *)

(** ** Strings and content types *)

Lemma after_last_delim_app (x y r : string) :
  after_last_delim y = Some r -> after_last_delim (x +:+ y) = Some r.
Proof.
  intros Hy. induction x as [|c x IH]; simpl; [done|]. by rewrite IH.
Qed.

Lemma append_String (c : ascii) (x y : string) :
  String c x +:+ y = String c (x +:+ y).
Proof. reflexivity. Qed.

Lemma string_app_assoc (x y z : string) : (x +:+ y) +:+ z = x +:+ (y +:+ z).
Proof.
  induction x as [|c x IH]; [done|].
  by rewrite !append_String, IH.
Qed.

Lemma extension_app_js (dir : string) : extension (dir +:+ "app.js") = "js".
Proof.
  unfold extension.
  by rewrite (after_last_delim_app dir "app.js" "js").
Qed.

Example lookup_upper_case : mime_lookup "/srv/client/dist/js/APP.JS"
                            = "application/javascript".
Proof. by vm_compute. Qed.

Example lookup_no_extension : mime_lookup "/srv/client/dist/LICENSE"
                              = "application/octet-stream".
Proof. by vm_compute. Qed.

(** ** Validation *)

Section Validation.
Context {platform : Platform} {S : Type} {service : ObjectStore S}.

Lemma validate_fresh (serverless : Serverless) (fs : FileSystem) (this : Client) :
  _validateAndPrepare serverless fs = Resolved this ->
  bucketExists this = false /\ clientPath this = dist_path serverless
  /\ configured_name serverless = Some (bucketName this)
  /\ bucketName this <> "".
Proof.
  unfold _validateAndPrepare, configured_name, dist_path.
  destruct (dirExistsSync _); simpl; [|done].
  destruct (custom serverless) as [cust|]; simpl; [|done].
  destruct (custom_client cust) as [settings|]; simpl; [|done].
  destruct (cfg_bucketName settings) as [name|] eqn:Hname; simpl; [|done].
  destruct (String.eqb name "") eqn:Hempty; simpl; [done|].
  intros [= <-]. simpl. repeat split; try done.
  intros ->. by rewrite String.eqb_refl in Hempty.
Qed.

(** C6. When the build directory is missing, the deployment is rejected
    with MissingBuildOutput; when it is there and no bucket name is
    configured, with MissingConfiguration. In both cases the world is
    handed back as it was: no request was sent to the store. *)
Theorem validation_aborts_before_any_request
  (serverless : Serverless) (fs : FileSystem) (w : World S) :
  (dirExistsSync (fs (dist_path serverless)) = false ->
   deploy serverless fs w = (Rejected MissingBuildOutput, w)) /\
  (dirExistsSync (fs (dist_path serverless)) = true ->
   Js.truthy (configured_name serverless) = false ->
   deploy serverless fs w = (Rejected MissingConfiguration, w)).
Proof.
  unfold deploy, _validateAndPrepare, configured_name, dist_path.
  split.
  - by intros ->.
  - intros -> Hname. simpl.
    destruct (custom serverless) as [cust|]; simpl in *; [|done].
    destruct (custom_client cust) as [settings|]; simpl in *; [|done].
    by rewrite Hname.
Qed.

End Validation.

(** ** Keys and content types of the uploads *)

Section Uploads.
Context {platform : Platform} {S : Type} {service : ObjectStore S}.

Lemma sent_app (es es' : list Event) : sent (es ++ es') = sent es ++ sent es'.
Proof. unfold sent. apply omap_app. Qed.

Lemma process_ignores_files (fs fs' : FileSystem) (this : Client) (w : World S) :
  fst (_processDeployment fs this w) = fst (_processDeployment fs' this w)
  /\ events (snd (_processDeployment fs this w))
     = events (snd (_processDeployment fs' this w))
  /\ store (snd (_processDeployment fs this w))
     = store (snd (_processDeployment fs' this w)).
Proof.
  unfold _processDeployment, mbind, chain_bind.
  destruct (reconcile this w) as [[[[]|e] this'] w']; simpl; done.
Qed.

(** C9. The put-object call made for a file carries the content type
    that the media-type lookup gives for the file's path; a file named
    app.js, in whatever directory, gets the JavaScript type, and a path
    whose extension is not in the table gets the generic binary type. *)
Theorem content_type_from_extension :
  (forall (this : Client) (filePath key : string) (node : FsNode) (w : World S),
      exists body,
        sent (events (on_readFile this filePath key node w))
        = sent (events w)
            ++ [PutObject (bucketName this) key body (mime_lookup filePath)]) /\
  (forall dir, mime_lookup (path_join dir "app.js") = "application/javascript") /\
  (forall path, mime_types !! extension path = None ->
                mime_lookup path = "application/octet-stream").
Proof.
  split; [|split].
  - intros this filePath key node w. unfold on_readFile.
    destruct (fs_readFile node) as [err fileBuffer]. exists fileBuffer.
    simpl. by rewrite sent_app.
  - intros dir. unfold mime_lookup, path_join.
    rewrite <- string_app_assoc, extension_app_js. by vm_compute.
  - intros path Hnone. unfold mime_lookup. by rewrite Hnone.
Qed.


End Uploads.

(** ** The reconciliation chain, against any object store *)

Section Reconcile.
Context {platform : Platform} {S : Type} {service : ObjectStore S}.

(** What [listBuckets] leaves in [this.bucketExists]. *)
Lemma discover (data : list BucketInfo) (name path : string) (b : bool) :
  foldl (fun this bucket =>
           if String.eqb (Name bucket) (bucketName this)
           then set_bucketExists true this else this)
        {| bucketName := name; clientPath := path; bucketExists := b |} data
  = {| bucketName := name; clientPath := path;
       bucketExists := b || bool_decide (name ∈ Name <$> data) |}.
Proof.
  revert b. induction data as [|bucket data IH]; intros b; simpl.
  - by rewrite orb_false_r.
  - destruct (String.eqb_spec (Name bucket) name) as [->|Hne].
    + unfold set_bucketExists; simpl. rewrite IH. simpl.
      rewrite bool_decide_true by constructor.
      by rewrite orb_true_r.
    + rewrite IH. f_equal. f_equal. apply bool_decide_ext.
      rewrite elem_of_cons. split; [by right|].
      intros [Heq|Hin]; [by destruct Hne|done].
Qed.

Lemma pick_Key_keys (Contents : list S3Object) :
  IdKey <$> (pick_Key <$> Contents) = Key <$> Contents.
Proof. rewrite <- list_fmap_compose. by apply list_fmap_ext. Qed.

Ltac unfold_chain :=
  unfold _processDeployment, reconcile, listObjectsInBucket,
    deleteObjectsFromBucket, createBucket, configureBucket,
    configurePolicyForBucket, listBuckets, request, get_this, call, throw,
    mbind, chain_bind, mret, chain_ret, boot, fresh;
  simpl.

Ltac answer :=
  match goal with
  | |- context [s3_listBuckets ?s] =>
      destruct (s3_listBuckets s) as [[?|?] ?]
  | |- context [s3_listObjects ?n ?s] =>
      destruct (s3_listObjects n s) as [[[|? ?]|?] ?]
  | |- context [s3_deleteObjects ?n ?l ?s] =>
      destruct (s3_deleteObjects n l s) as [[?|?] ?]
  | |- context [s3_createBucket ?n ?s] =>
      destruct (s3_createBucket n s) as [[?|?] ?]
  | |- context [s3_putBucketWebsite ?n ?c ?s] =>
      destruct (s3_putBucketWebsite n c s) as [[?|?] ?]
  | |- context [s3_putBucketPolicy ?n ?c ?s] =>
      destruct (s3_putBucketPolicy n c s) as [[?|?] ?]
  end; simpl.

Ltac in_order :=
  unfold stages;
  repeat first [ apply sublist_nil_l | apply sublist_skip | apply sublist_cons ].

(** C8. The requests of a deployment are sent in the order list-buckets,
    list-objects, delete-objects, create-bucket, put-bucket-website,
    put-bucket-policy. What is sent is an initial part of that sequence
    with only the conditional steps left out: list-buckets always
    comes first; then list-objects and possibly one delete-objects when
    [bucketExists] is set, create-bucket when it is not; then
    put-bucket-website and put-bucket-policy; and when the chain
    resolves nothing of this is missing. Each request is settled before
    the next is sent and none follows a failure; the upload is started
    exactly when the chain resolved, and then the last event before it
    is the success of the policy request. *)
Theorem stages_in_order (fs : FileSystem) (this : Client) (s : S) :
  let '(res, this', w') := _processDeployment fs this (boot s) in
  in_sequence (events w') /\
  (exists ids, sent (events w') `sublist_of` stages (bucketName this) ids) /\
  (exists drain,
      (drain = [] \/ exists ids, drain = [DeleteObjects (bucketName this) ids])
      /\ let full :=
           ListBuckets
             :: (if bucketExists this'
                 then ListObjects (bucketName this) :: drain
                 else [CreateBucket (bucketName this)])
             ++ [ PutBucketWebsite (bucketName this) website_config;
                  PutBucketPolicy (bucketName this)
                                  (bucket_policy (bucketName this)) ] in
         sent (events w') `prefix_of` full
         /\ head (sent (events w')) = Some ListBuckets
         /\ (is_resolved res = true -> sent (events w') = full)) /\
  pool w' = (if is_resolved res
             then [Readdir (clientPath this) (fs (clientPath this))]
             else []) /\
  (is_resolved res = true ->
   last (events w')
   = Some (Settled (PutBucketPolicy (bucketName this)
                                    (bucket_policy (bucketName this))) true)).
Proof.
  destruct this as [name path b]. unfold_chain. answer.
  - rewrite discover. simpl.
    destruct (b || bool_decide (name ∈ Name <$> _)); simpl;
      repeat answer;
      (split; [repeat constructor|]);
      (split; [first [ by exists []; in_order | by eexists; in_order ]|]);
      (split;
       [first
          [ by (exists []; split; [by left|]; simpl;
                split; [by eexists|]; split)
          | by (eexists [DeleteObjects _ _]; split; [right; by eexists|];
                simpl; split; [by eexists|]; split) ]|]);
      by split.
  - split; [repeat constructor|].
    split; [by exists []; in_order|].
    split; [|by split].
    exists []. split; [by left|]. simpl.
    split; [|by split]. destruct b; by eexists.
Qed.

(** C7. With the plugin object as validation leaves it and a bucket
    listing that succeeds, [bucketExists] ends up true exactly when the
    listing holds a bucket whose name is the configured name, character
    for character; create-bucket is sent once when it is false and not
    at all when it is true. *)
Theorem create_iff_not_listed (name path : string) (s s1 : S)
  (buckets : list BucketInfo) :
  s3_listBuckets s = (Resolved buckets, s1) ->
  let '(_, this', w') := reconcile (fresh name path) (boot s) in
  (bucketExists this' = true <-> name ∈ Name <$> buckets) /\
  List.filter is_CreateBucket (sent (events w'))
  = (if bucketExists this' then [] else [CreateBucket name]).
Proof.
  intros Hlist. unfold_chain. rewrite Hlist. simpl.
  rewrite discover. simpl.
  destruct (bool_decide (name ∈ Name <$> buckets)) eqn:Hin; simpl.
  - apply bool_decide_eq_true in Hin. repeat answer; by split.
  - apply bool_decide_eq_false in Hin. repeat answer; by split.
Qed.

(** C3. With the plugin object as validation leaves it and a bucket
    listing that succeeds: when the bucket is not listed, neither
    list-objects nor delete-objects is sent; when it is listed and its
    object listing comes back, list-objects was sent once, and
    delete-objects is sent once, for exactly the listed keys, when the
    listing is not empty, and not at all when it is. *)
Theorem drain_listed_objects (name path : string) (s s1 : S)
  (buckets : list BucketInfo) :
  s3_listBuckets s = (Resolved buckets, s1) ->
  let '(_, _, w') := reconcile (fresh name path) (boot s) in
  let requests := sent (events w') in
  (name ∉ Name <$> buckets ->
   List.filter is_ListObjects requests = [] /\
   List.filter is_DeleteObjects requests = []) /\
  (name ∈ Name <$> buckets ->
   forall Contents s2,
     s3_listObjects name s1 = (Resolved Contents, s2) ->
     List.filter is_ListObjects requests = [ListObjects name] /\
     match Contents with
     | [] => List.filter is_DeleteObjects requests = []
     | _ :: _ =>
         exists ids,
           List.filter is_DeleteObjects requests = [DeleteObjects name ids]
           /\ IdKey <$> ids = Key <$> Contents
     end).
Proof.
  intros Hlist. unfold_chain. rewrite Hlist. simpl.
  rewrite discover. simpl.
  destruct (bool_decide (name ∈ Name <$> buckets)) eqn:Hin; simpl.
  - apply bool_decide_eq_true in Hin.
    destruct (s3_listObjects name s1) as [[Contents|e] s2] eqn:Hobjects; simpl.
    + destruct Contents as [|o os]; simpl; repeat answer;
        (split; [done|]); intros _ Contents' s2' [= <- <-];
        (split; [done|]); try done;
        by (eexists; split; [reflexivity|]; apply (pick_Key_keys (_ :: _))).
    + by split.
  - apply bool_decide_eq_false in Hin. repeat answer; by split.
Qed.

End Reconcile.

(** ** Reconciliation against the object store of the specification *)

Section Converge.
Context {platform : Platform}.

Lemma listed_iff (name : string) (s : Store) :
  name ∈ Name <$> ((fun entry : string * Bucket =>
                      {| Name := fst entry; CreationDate := "" |})
                     <$> map_to_list s)
  <-> is_Some (s !! name).
Proof.
  rewrite <- list_fmap_compose. rewrite list_elem_of_fmap. split.
  - intros [[k b] [-> Hin]]. simpl.
    apply elem_of_map_to_list in Hin. by exists b.
  - intros [b Hb]. exists (name, b). split; [done|].
    by apply elem_of_map_to_list.
Qed.

Lemma lookup_delete_keys (ids : list ObjectIdentifier)
  (os : gmap string StoredObject) (k : string) :
  delete_keys ids os !! k
  = if decide (k ∈ IdKey <$> ids) then None else os !! k.
Proof.
  induction ids as [|id ids IH].
  - rewrite decide_False by apply not_elem_of_nil. done.
  - change (delete_keys (id :: ids) os)
      with (delete (IdKey id) (delete_keys ids os)).
    rewrite fmap_cons, lookup_delete, IH.
    destruct (decide (IdKey id = k)) as [<-|Hne].
    + rewrite decide_True; [done|constructor].
    + destruct (decide (k ∈ IdKey <$> ids)) as [Hin|Hout].
      * rewrite decide_True; [done|by constructor].
      * rewrite decide_False; [done|].
        rewrite elem_of_cons. by intros [->|?].
Qed.

(** Deleting the keys of a full listing leaves nothing. *)
Lemma delete_listing (os : gmap string StoredObject) :
  delete_keys (pick_Key <$> (describe_object <$> map_to_list os)) os = ∅.
Proof.
  apply map_eq. intros k. rewrite lookup_delete_keys, lookup_empty.
  destruct (decide _) as [Hin|Hout]; [done|].
  destruct (os !! k) as [o|] eqn:Hk; [|done].
  exfalso. apply Hout.
  rewrite <- !list_fmap_compose. apply list_elem_of_fmap.
  exists (k, o). split; [done|]. by apply elem_of_map_to_list.
Qed.

Ltac unfold_model :=
  unfold reconcile, listObjectsInBucket, deleteObjectsFromBucket,
    createBucket, configureBucket, configurePolicyForBucket, listBuckets,
    request, get_this, call, throw, mbind, chain_bind, mret, chain_ret;
  simpl.

(** On the model every run resolves, and writes the reconciled bucket
    under the configured name; the flag may only be set if the bucket
    is there. *)
Lemma reconcile_model (this : Client) (w : World Store) :
  (store w !! bucketName this = None -> bucketExists this = false) ->
  exists this' w',
    reconcile this w = (Resolved tt, this', w')
    /\ bucketName this' = bucketName this
    /\ store w' = <[bucketName this := reconciled (bucketName this)]> (store w).
Proof.
  destruct this as [name path b]. destruct w as [s es ts cr]. simpl.
  intros Hflag. unfold_model. rewrite discover. simpl.
  destruct (s !! name) as [bk|] eqn:Hname.
  - rewrite (bool_decide_true (name ∈ _)) by (apply listed_iff; eauto).
    rewrite orb_true_r. simpl. unfold on_bucket. rewrite Hname. simpl.
    destruct (map_to_list (objects bk)) as [|o os] eqn:Hobjects; simpl.
    + apply map_to_list_empty_iff in Hobjects.
      rewrite Hname. simpl. rewrite lookup_insert_eq. simpl.
      eexists _, _. split; [reflexivity|]. split; [done|]. simpl.
      rewrite insert_insert_eq. unfold reconciled, set_policy, set_website.
      simpl. by rewrite Hobjects.
    + rewrite Hname. simpl. rewrite !lookup_insert_eq. simpl.
      rewrite !lookup_insert_eq. simpl.
      eexists _, _. split; [reflexivity|]. split; [done|]. simpl.
      rewrite !insert_insert_eq. unfold reconciled, set_policy, set_website,
        set_objects. simpl. f_equal. f_equal.
      etrans; [|apply (delete_listing (objects bk))].
      rewrite Hobjects. reflexivity.
  - rewrite (Hflag eq_refl). simpl.
    rewrite (bool_decide_false (name ∈ _))
      by (rewrite listed_iff, Hname; by intros [? ?]).
    simpl. rewrite Hname. simpl. unfold on_bucket.
    rewrite !lookup_insert_eq. simpl. rewrite !lookup_insert_eq. simpl.
    eexists _, _. split; [reflexivity|]. split; [done|]. simpl.
    by rewrite !insert_insert_eq.
Qed.

(** C1. Whatever the store holds (the bucket absent, empty or not),
    reconciliation resolves and leaves under the configured name a
    bucket with no objects, the website configuration with index
    document index.html and error document error.html, and the policy
    that allows s3:GetObject to every principal on
    arn:aws:s3:::name/*; no other bucket is touched; and a second run,
    by the same plugin object or by a new one, resolves and leaves the
    store as the first run left it. *)
Theorem reconcile_converges (name path : string) (s : Store) :
  exists this1 w1,
    reconcile (fresh name path) (boot s) = (Resolved tt, this1, w1) /\
    store w1 !! name
    = Some {| objects := ∅;
              website := Some {| IndexDocument_Suffix := "index.html";
                                 ErrorDocument_Key := "error.html" |};
              policy := Some (bucket_policy name) |} /\
    (exists sid,
        Statements (bucket_policy name)
        = [ {| Sid := sid; Effect := "Allow"; Principal_AWS := "*";
               Action := "s3:GetObject";
               Resource := "arn:aws:s3:::" +:+ name +:+ "/*" |} ]) /\
    (forall other, other <> name -> store w1 !! other = s !! other) /\
    (exists this2 w2,
        reconcile this1 w1 = (Resolved tt, this2, w2) /\ store w2 = store w1) /\
    (exists this2 w2,
        reconcile (fresh name path) w1 = (Resolved tt, this2, w2)
        /\ store w2 = store w1).
Proof.
  destruct (reconcile_model (fresh name path) (boot s)) as
    (this1 & w1 & Hrun & Hname & Hstore); [done|].
  simpl in Hname, Hstore.
  assert (Hthere : store w1 !! name = Some (reconciled name))
    by (by rewrite Hstore, lookup_insert_eq).
  exists this1, w1. split; [done|]. split; [done|].
  split; [by eexists|].
  split; [by intros other Hother; rewrite Hstore, lookup_insert_ne|].
  split.
  - destruct (reconcile_model this1 w1) as (this2 & w2 & Hrun2 & _ & Hstore2).
    { rewrite Hname, Hthere. done. }
    exists this2, w2. split; [done|].
    rewrite Hstore2, Hname. by apply insert_id.
  - destruct (reconcile_model (fresh name path) w1)
      as (this2 & w2 & Hrun2 & _ & Hstore2); [done|].
    exists this2, w2. split; [done|].
    rewrite Hstore2. simpl. by apply insert_id.
Qed.

End Converge.

(** ** The event loop of the upload *)

Section Loop.
Context {platform : Platform} {S : Type} {service : ObjectStore S}.

(** Induction on a tree, with the hypothesis for every entry of a
    directory. *)
Lemma FsNode_tree_ind (P : FsNode -> Prop) :
  (forall contents, P (File contents)) ->
  (forall readable entries,
      Forall (fun e => P (snd e)) entries -> P (Dir readable entries)) ->
  P Broken ->
  forall node, P node.
Proof.
  intros HFile HDir HBroken. fix IH 1. intros [contents|readable entries|].
  - apply HFile.
  - apply HDir. induction entries as [|e entries IHentries]; constructor.
    + apply IH.
    + apply IHentries.
  - apply HBroken.
Qed.

Lemma puts_app (es es' : list Event) : puts (es ++ es') = puts es ++ puts es'.
Proof. unfold puts. by rewrite sent_app, List.filter_app. Qed.

Lemma pending_stats (this : Client) (path : string)
  (entries : list (string * FsNode)) :
  flat_map (pending this)
    (map (fun p => Stat (fst p) (snd p))
       (map (fun file => (path_join path (fst file), snd file)) entries))
  = flat_map (fun e => expected this (path_join path (fst e)) (snd e)) entries.
Proof.
  induction entries as [|e entries IH]; simpl; [done|]. by rewrite IH.
Qed.

(** What has been put and what is still to come make up the same
    collection before and after a turn of the loop. *)
Lemma step_conserves (this : Client) (w w' : World S) :
  step this w w' ->
  puts (events w') ++ flat_map (pending this) (pool w')
  ≡ₚ puts (events w) ++ flat_map (pending this) (pool w).
Proof.
  intros [w0 before t after _ Hpool].
  destruct w0 as [s es ts cr]. simpl in *. subst ts.
  rewrite !flat_map_app. simpl.
  destruct t as [path node|path node|filePath key node|b k body ct]; simpl.
  - unfold on_readdir.
    destruct node as [contents|[|] entries|]; simpl;
      rewrite ?flat_map_app, ?pending_stats, ?app_nil_r; try done.
    apply Permutation_app_head. rewrite <- app_assoc.
    apply Permutation_app_head, Permutation_app_comm.
  - unfold on_stat.
    destruct node as [contents|readable entries|]; simpl;
      rewrite ?puts_app, ?flat_map_app; simpl; rewrite ?app_nil_r.
    + apply Permutation_app_head. rewrite <- app_assoc.
      apply Permutation_app_head.
      destruct contents; simpl; apply (Permutation_app_comm _ [_]).
    + apply Permutation_app_head. rewrite <- app_assoc.
      apply Permutation_app_head, Permutation_app_comm.
    + done.
  - unfold on_readFile. destruct (fs_readFile node) as [err fileBuffer].
    simpl. rewrite puts_app, flat_map_app. simpl. rewrite app_nil_r.
    rewrite <- !app_assoc. apply Permutation_app_head. simpl.
    rewrite ?flat_map_app. apply Permutation_middle.
  - unfold on_put. simpl. destruct (s3_putObject b k body ct s) as [res s'].
    simpl. rewrite puts_app. simpl. by rewrite app_nil_r, flat_map_app.
Qed.

Lemma run_conserves (this : Client) (w w' : World S) :
  rtc (step this) w w' ->
  puts (events w') ++ flat_map (pending this) (pool w')
  ≡ₚ puts (events w) ++ flat_map (pending this) (pool w).
Proof.
  induction 1 as [w|w w1 w2 Hstep _ IH]; [done|].
  rewrite IH. by apply step_conserves.
Qed.

(** On a healthy tree the calls to come are those of its files. *)
Lemma expected_files (this : Client) (node : FsNode) :
  forall path,
    healthy node = true ->
    expected this path node = put_of this <$> files_under path node
    /\ Forall (fun file => is_Some (snd file)) (files_under path node).
Proof.
  induction node as [contents|readable entries IH|] using FsNode_tree_ind;
    intros path Hhealthy; simpl in *.
  - split; [done|]. constructor; [|done]. by apply bool_decide_eq_true in Hhealthy.
  - apply andb_true_iff in Hhealthy as [-> Hentries].
    induction entries as [|e entries IHentries]; simpl in *; [done|].
    apply andb_true_iff in Hentries as [He Hrest].
    inversion IH as [|? ? IHe IHrest]; subst.
    destruct (IHe (path_join path (fst e)) He) as [-> Hsome].
    destruct (IHentries IHrest Hrest) as [-> Hsomes].
    split; [by rewrite fmap_app|]. by apply Forall_app.
  - done.
Qed.

(** *** Every run on a healthy tree comes to an end *)

Lemma turns_positive (t : Task) : 0 < turns t.
Proof. destruct t as [? []|? []|? ? ?|? ? ? ?]; simpl; lia. Qed.

Lemma total_turns_app (ts ts' : list Task) :
  total_turns (ts ++ ts') = total_turns ts + total_turns ts'.
Proof. unfold total_turns. by rewrite map_app, list_sum_app. Qed.

Lemma stats_of_turns (path : string) (entries : list (string * FsNode)) :
  total_turns (stats_of path entries)
  = list_sum (map (fun e => Datatypes.S (weight (snd e))) entries).
Proof.
  unfold total_turns, stats_of.
  induction entries as [|e entries IH]; simpl; [done|]. by rewrite IH.
Qed.

Lemma stats_of_healthy (path : string) (entries : list (string * FsNode)) :
  forallb (fun e => healthy (snd e)) entries = true ->
  Forall (fun t => task_healthy t = true) (stats_of path entries).
Proof.
  unfold stats_of.
  induction entries as [|e entries IH]; simpl; [constructor|].
  intros [He Hrest]%andb_true_iff. constructor; [done|by apply IH].
Qed.

(** A healthy operation completes without ending the process, leaves
    healthy operations behind, and uses up at least one turn. *)
Lemma complete_healthy (this : Client) (t : Task) (w : World S) :
  task_healthy t = true ->
  crashed w = false ->
  Forall (fun t => task_healthy t = true) (pool w) ->
  crashed (complete this t w) = false
  /\ Forall (fun t => task_healthy t = true) (pool (complete this t w))
  /\ total_turns (pool (complete this t w)) < total_turns (pool w) + turns t.
Proof.
  intros Ht Hcr Hpool. destruct w as [s es ts cr]. simpl in *. subst cr.
  destruct t as [path node|path node|filePath key node|b k body ct]; simpl in *.
  - unfold on_readdir.
    destruct node as [contents|readable entries|]; simpl in *; try done.
    + split; [done|]. split; [done|]. lia.
    + apply andb_true_iff in Ht as [-> Hentries]. simpl.
      fold (stats_of path entries).
      split; [done|]. split.
      * apply Forall_app. split; [done|by apply stats_of_healthy].
      * rewrite total_turns_app, stats_of_turns. lia.
  - unfold on_stat.
    destruct node as [contents|readable entries|]; simpl in *; try done.
    + split; [done|]. split.
      * apply Forall_app. split; [done|]. by constructor.
      * rewrite total_turns_app. unfold total_turns. simpl. lia.
    + split; [done|]. split.
      * apply Forall_app. split; [done|]. by constructor.
      * rewrite total_turns_app. unfold total_turns. simpl. lia.
  - unfold on_readFile. destruct (fs_readFile node) as [err fileBuffer].
    simpl. split; [done|]. split.
    + apply Forall_app. split; [done|]. by constructor.
    + rewrite total_turns_app. unfold total_turns. simpl. lia.
  - unfold on_put. simpl. destruct (s3_putObject b k body ct s) as [res s'].
    simpl. split; [done|]. split; [done|]. lia.
Qed.

Lemma step_healthy (this : Client) (w w' : World S) :
  step this w w' ->
  Forall (fun t => task_healthy t = true) (pool w) ->
  crashed w' = false /\ Forall (fun t => task_healthy t = true) (pool w').
Proof.
  intros [w0 before t after Hcr Hpool] Hall. rewrite Hpool in Hall.
  apply Forall_app in Hall as [Hbefore Hafter].
  apply Forall_cons in Hafter as [Ht Hafter].
  destruct (complete_healthy this t (set_pool (before ++ after) w0))
    as (? & ? & _).
  - done.
  - by destruct w0.
  - destruct w0; simpl. by apply Forall_app.
  - done.
Qed.

Lemma run_healthy (this : Client) (w w' : World S) :
  rtc (step this) w w' ->
  crashed w = false ->
  Forall (fun t => task_healthy t = true) (pool w) ->
  crashed w' = false /\ Forall (fun t => task_healthy t = true) (pool w').
Proof.
  induction 1 as [w|w w1 w2 Hstep _ IH]; intros Hcr Hall; [done|].
  destruct (step_healthy this w w1 Hstep Hall). by apply IH.
Qed.

(** With enough fuel the first-in first-out loop empties the pool, and
    what it does is a run of the event loop. *)
Lemma run_loop_drains (this : Client) (fuel : nat) :
  forall w : World S,
    crashed w = false ->
    Forall (fun t => task_healthy t = true) (pool w) ->
    total_turns (pool w) <= fuel ->
    rtc (step this) w (run_loop fuel this w)
    /\ pool (run_loop fuel this w) = [].
Proof.
  induction fuel as [|fuel IH]; intros w Hcr Hall Hfuel; simpl.
  - split; [done|]. destruct (pool w) as [|t ts]; [done|].
    unfold total_turns in Hfuel. simpl in Hfuel.
    pose proof (turns_positive t). lia.
  - rewrite Hcr. destruct (pool w) as [|t ts] eqn:Hpool; [done|].
    apply Forall_cons in Hall as [Ht Hts].
    destruct (complete_healthy this t (set_pool ts w)) as (Hcr' & Hall' & Hlt).
    { done. }
    { by destruct w. }
    { by destruct w. }
    assert (Hpool' : pool (set_pool ts w) = ts) by (by destruct w).
    rewrite Hpool' in Hlt.
    unfold total_turns in Hfuel. simpl in Hfuel. fold (total_turns ts) in Hfuel.
    destruct (IH (complete this t (set_pool ts w))) as [Hrun Hempty];
      try done; [lia|].
    split; [|done].
    eapply rtc_l; [|exact Hrun].
    by apply (step_complete this w [] t ts).
Qed.

(** C2. On a tree in which every call of the file system succeeds, and
    whose root is a directory: every file can be read in full; every
    run of the event loop can be continued until nothing is in flight;
    at every moment the put-object calls made so far are among those of
    the files, each at most once; and when nothing is in flight there
    has been exactly one put-object call for each file, with the file's
    contents as body, and none besides, so none for a directory. *)
Theorem upload_one_put_per_file (this : Client) (s : S) (rootPath : string)
  (root : FsNode) :
  healthy root = true ->
  dirExistsSync root = true ->
  let w0 := _uploadDirectory rootPath root (boot s) in
  Forall (fun file => is_Some (snd file)) (files_under rootPath root) /\
  (forall w, rtc (step this) w0 w ->
             exists w', rtc (step this) w w' /\ pool w' = []) /\
  (forall w, rtc (step this) w0 w ->
             puts (events w) ⊆+ put_of this <$> files_under rootPath root) /\
  (forall w, rtc (step this) w0 w -> pool w = [] ->
             puts (events w) ≡ₚ put_of this <$> files_under rootPath root).
Proof.
  intros Hhealthy Hdir w0.
  destruct (expected_files this root rootPath Hhealthy) as [Hexpected Hsome].
  assert (Hstart : puts (events w0) ++ flat_map (pending this) (pool w0)
                   = put_of this <$> files_under rootPath root).
  { unfold w0, _uploadDirectory. simpl. rewrite app_nil_r, <- Hexpected.
    by destruct root. }
  split; [done|]. split; [|split].
  - intros w Hrun.
    destruct (run_healthy this w0 w Hrun) as [Hcr Hall]; [done| |].
    { unfold w0. simpl. by repeat constructor. }
    destruct (run_loop_drains this (total_turns (pool w)) w Hcr Hall)
      as [Hrun' Hempty]; [done|].
    by eexists.
  - intros w Hrun. rewrite <- Hstart, <- (run_conserves this w0 w Hrun).
    by apply submseteq_inserts_r.
  - intros w Hrun Hempty.
    rewrite <- Hstart, <- (run_conserves this w0 w Hrun), Hempty.
    simpl. by rewrite app_nil_r.
Qed.

(** *** Everything is in flight at once *)

Lemma set_pool_pool (w : World S) : set_pool (pool w) w = w.
Proof. by destruct w. Qed.

(** The [fs.stat] calls of a directory of files complete one after the
    other while every [fs.readFile] they start stays in flight. *)
Lemma stats_complete (this : Client) (path : string)
  (entries : list (string * FsNode)) :
  all_files entries = true ->
  forall (acc : list Task) (w : World S),
    crashed w = false ->
    pool w = stats_of path entries ++ acc ->
    rtc (step this) w (set_pool (acc ++ reads_of this path entries) w).
Proof.
  unfold stats_of, reads_of.
  induction entries as [|e entries IH]; simpl; intros Hfiles acc w Hcr Hpool.
  - rewrite app_nil_r, <- Hpool, set_pool_pool. done.
  - apply andb_true_iff in Hfiles as [He Hfiles].
    destruct e as [name [contents| |]]; simpl in *; try done.
    eapply rtc_l.
    + by apply (step_complete this w [] _ _ Hcr Hpool).
    + simpl. unfold on_stat, _uploadFile. simpl.
      specialize (IH Hfiles (acc ++ [ReadFile (path_join path name)
                                       (fileKey this (path_join path name))
                                       (File contents)])
                    (spawn [ReadFile (path_join path name)
                              (fileKey this (path_join path name))
                              (File contents)]
                       (set_pool (stats_of path entries ++ acc) w))).
      unfold stats_of in IH.
      replace (set_pool _ (spawn _ _))
        with (set_pool
                (acc ++ ReadFile (path_join path name)
                          (fileKey this (path_join path name)) (File contents)
                     :: map (fun e =>
                               ReadFile (path_join path (fst e))
                                 (fileKey this (path_join path (fst e)))
                                 (snd e)) entries) w) in IH
        by (destruct w; simpl; by rewrite <- app_assoc).
      apply IH.
      * by destruct w.
      * destruct w; simpl. by rewrite <- app_assoc.
Qed.

(** The [fs.readFile] calls complete one after the other while every
    put-object request they send stays in flight. *)
Lemma reads_complete (this : Client) (path : string)
  (entries : list (string * FsNode)) :
  forall (acc : list Task) (w : World S),
    crashed w = false ->
    pool w = reads_of this path entries ++ acc ->
    exists w',
      rtc (step this) w w' /\ crashed w' = false
      /\ pool w' = acc ++ requests_of this path entries.
Proof.
  unfold reads_of, requests_of.
  induction entries as [|e entries IH]; simpl; intros acc w Hcr Hpool.
  - exists w. by rewrite app_nil_r.
  - destruct e as [name node]. simpl in *.
    pose (w1 := complete this
                  (ReadFile (path_join path name)
                     (fileKey this (path_join path name)) node)
                  (set_pool
                     (map (fun e =>
                             ReadFile (path_join path (fst e))
                               (fileKey this (path_join path (fst e)))
                               (snd e)) entries ++ acc) w)).
    assert (Hstep : step this w w1)
      by (by apply (step_complete this w [] _ _ Hcr Hpool)).
    destruct (IH (acc ++ [Put (bucketName this)
                            (fileKey this (path_join path name))
                            (snd (fs_readFile node))
                            (mime_lookup (path_join path name))]) w1)
      as (w' & Hrun & Hcr' & Hpool').
    + unfold w1. simpl. unfold on_readFile.
      destruct (fs_readFile node). by destruct w.
    + unfold w1. simpl. unfold on_readFile.
      destruct (fs_readFile node). destruct w; simpl.
      by rewrite <- app_assoc.
    + exists w'. split; [by eapply rtc_l|]. split; [done|].
      by rewrite Hpool', <- app_assoc.
Qed.

Lemma file_entries_files (n : nat) : all_files (file_entries n) = true.
Proof.
  unfold all_files, file_entries. apply forallb_forall.
  intros e [i [<- _]]%in_map_iff. done.
Qed.

End Loop.

(** C4. The call that starts the upload returns with the root
    [fs.readdir] in flight and nothing put, and the deployment promise
    resolves then. What it resolves to is the same for every file
    system and for every way the store may answer put-object requests,
    so no read or upload failure reaches the caller. And nothing bounds
    what is in flight: for every [n] there is a run in which [n]
    file reads are in flight at once before any put-object request is
    sent, and then [n] put-object requests at once. *)
Theorem uploads_fire_and_forget {platform : Platform} {S : Type}
  (service : ObjectStore S) (this : Client) :
  (forall (path : string) (node : FsNode) (w : World S),
      pool (_uploadDirectory path node w) = pool w ++ [Readdir path node]
      /\ events (_uploadDirectory path node w) = events w
      /\ store (_uploadDirectory path node w) = store w) /\
  (forall (fs : FileSystem) (w : World S),
      let '(res, _, w') := _processDeployment fs this w in
      puts (events w') = puts (events w) /\
      (is_resolved res = true ->
       pool w' = pool w ++ [Readdir (clientPath this) (fs (clientPath this))])) /\
  (forall (fs fs' : FileSystem) put (w : World S),
      fst (_processDeployment (service := service) fs this w)
      = fst (_processDeployment (service := with_putObject service put)
                                fs' this w)) /\
  (forall (n : nat) (path : string) (s : S),
      exists w1 w2,
        rtc (step this) (_uploadDirectory path (flat_directory n) (boot s)) w1
        /\ rtc (step this) w1 w2
        /\ length (pool w1) = n
        /\ forallb is_ReadFile (pool w1) = true
        /\ puts (events w1) = []
        /\ length (pool w2) = n
        /\ forallb is_Put (pool w2) = true).
Proof.
  split; [done|]. split; [|split].
  - intros fs w. destruct this as [name path b]. destruct w as [s es ts cr].
    unfold _processDeployment, reconcile, listObjectsInBucket,
      deleteObjectsFromBucket, createBucket, configureBucket,
      configurePolicyForBucket, listBuckets, request, get_this, call, throw,
      mbind, chain_bind, mret, chain_ret, puts.
    simpl.
    destruct (s3_listBuckets s) as [[data|e] s1]; simpl;
      [|rewrite sent_app, List.filter_app, app_nil_r; by split].
    rewrite discover. simpl.
    destruct (b || bool_decide (name ∈ Name <$> data)); simpl;
      repeat
        (match goal with
         | |- context [s3_listObjects ?n ?s] =>
             destruct (s3_listObjects n s) as [[[|? ?]|?] ?]
         | |- context [s3_deleteObjects ?n ?l ?s] =>
             destruct (s3_deleteObjects n l s) as [[?|?] ?]
         | |- context [s3_createBucket ?n ?s] =>
             destruct (s3_createBucket n s) as [[?|?] ?]
         | |- context [s3_putBucketWebsite ?n ?c ?s] =>
             destruct (s3_putBucketWebsite n c s) as [[?|?] ?]
         | |- context [s3_putBucketPolicy ?n ?c ?s] =>
             destruct (s3_putBucketPolicy n c s) as [[?|?] ?]
         end; simpl);
      rewrite !sent_app, !List.filter_app; simpl; rewrite ?app_nil_r;
      by split.
  - intros fs fs' put w.
    rewrite (proj1 (process_ignores_files fs fs' this w)). reflexivity.
  - intros n path s.
    pose (w0 := _uploadDirectory path (flat_directory n) (boot s)).
    pose (w1 := set_pool (reads_of this path (file_entries n)) (boot s)).
    assert (Hlisted : rtc (step this) w0
                          (set_pool (stats_of path (file_entries n)) (boot s))).
    { eapply rtc_l; [|apply rtc_refl].
      by apply (step_complete this w0 [] (Readdir path (flat_directory n)) []). }
    assert (Hreads : rtc (step this) w0 w1).
    { etrans; [exact Hlisted|].
      apply (stats_complete this path (file_entries n) (file_entries_files n) []
               (set_pool (stats_of path (file_entries n)) (boot s)));
        [done|]. simpl. by rewrite app_nil_r. }
    destruct (reads_complete this path (file_entries n) [] w1)
      as (w2 & Hrun & _ & Hpool); [done| |].
    { unfold w1. simpl. by rewrite app_nil_r. }
    exists w1, w2. split; [done|]. split; [done|].
    unfold w1, reads_of, file_entries. simpl in *.
    rewrite Hpool. unfold requests_of, file_entries.
    rewrite !length_map, length_seq.
    repeat split; try done.
    + apply forallb_forall. by intros t [e [<- _]]%in_map_iff.
    + apply forallb_forall. by intros t [e [<- _]]%in_map_iff.
Qed.

(** ** Object keys *)

Example key_on_posix :
  fileKey site_client "/srv/client/dist/css/app.css" = "css/app.css".
Proof. by vm_compute. Qed.

Example key_one_level_on_windows :
  fileKey windows_client "C:\proj\client\dist\css\app.css" = "css/app.css".
Proof. by vm_compute. Qed.

(** C5. On a Windows host a file two directories below the root gets a
    key in which only the first separator has become a forward slash:
    the key of [css\fonts\a.woff] is [css/fonts\a.woff], where the
    specification describes [css/fonts/a.woff]; the upload sends it
    under that key. *)
Theorem nested_key_keeps_backslash :
  let filePath :=
    @path_join win32
      (@path_join win32 (@path_join win32 windows_root "css") "fonts")
      "a.woff" in
  filePath = "C:\proj\client\dist\css\fonts\a.woff" /\
  fileKey windows_client filePath = "css/fonts\a.woff" /\
  spec_remoteKey windows_root filePath = "css/fonts/a.woff" /\
  sent (events (@run_loop win32 Store store_model 16 windows_client
                  (_uploadDirectory windows_root windows_tree
                     (boot (∅ : Store)))))
  = [ PutObject "my-bucket" "css/fonts\a.woff" (Some (bytes_of "wOFF"))
                "application/font-woff" ].
Proof. by vm_compute. Qed.

(** ** The scenarios of the specification, run *)

Example deploy_site :
  let '(res, w) := @deploy posix Store store_model site_config site_fs
                     (boot stale_store) in
  let w' := @run_loop posix Store store_model 32 site_client w in
  res = Resolved tt /\
  sent (events w)
  = [ ListBuckets; ListObjects "my-bucket";
      DeleteObjects "my-bucket"
        [ {| IdKey := "old.txt" |}; {| IdKey := "stale.js" |} ];
      PutBucketWebsite "my-bucket" website_config;
      PutBucketPolicy "my-bucket" (bucket_policy "my-bucket") ] /\
  pool w' = [] /\
  puts (events w')
  = [ PutObject "my-bucket" "index.html" (Some (bytes_of "<h1>home</h1>"))
                "text/html";
      PutObject "my-bucket" "error.html" (Some (bytes_of "<h1>oops</h1>"))
                "text/html";
      PutObject "my-bucket" "css/app.css" (Some (bytes_of "h1 {}"))
                "text/css" ] /\
  (forall b, store w' !! "my-bucket" = Some b ->
             dom (objects b) = {[ "index.html"; "error.html"; "css/app.css" ]}).
Proof.
  vm_compute. repeat split; try done.
  intros b [= <-]. by vm_compute.
Qed.

Example deploy_faulty_tree :
  let w := @run_loop posix Store store_model 32 site_client
             (_uploadDirectory "/srv/client/dist" faulty_tree
                (boot (<["my-bucket" := new_bucket]> ∅ : Store))) in
  crashed w = true /\
  pool w = [ ReadFile "/srv/client/dist/secret.txt" "secret.txt" (File None) ].
Proof. by vm_compute. Qed.

(** ** Instances of the theorems *)

Lemma validation_aborts_before_any_request_witness :
  @deploy posix Store store_model site_config no_fs (boot stale_store)
  = (Rejected MissingBuildOutput, boot stale_store) /\
  @deploy posix Store store_model unnamed_config site_fs (boot stale_store)
  = (Rejected MissingConfiguration, boot stale_store).
Proof.
  split.
  - apply (proj1 (@validation_aborts_before_any_request posix Store store_model
                    site_config no_fs (boot stale_store))).
    reflexivity.
  - apply (proj2 (@validation_aborts_before_any_request posix Store store_model
                    unnamed_config site_fs (boot stale_store))).
    + reflexivity.
    + reflexivity.
Defined.

Lemma content_type_from_extension_witness :
  mime_lookup "/srv/client/dist/data.xyz" = "application/octet-stream"
  /\ mime_lookup (@path_join posix "/srv/client/dist" "app.js")
     = "application/javascript".
Proof.
  split.
  - apply (proj2 (proj2 (content_type_from_extension (platform := posix) (S := Store)))).
    reflexivity.
  - apply (proj1 (proj2 (content_type_from_extension (platform := posix) (S := Store)))).
Defined.


Lemma create_iff_not_listed_witness :
  let '(_, this', w') :=
    reconcile (fresh "my-bucket" "/srv/client/dist") (boot stale_store) in
  (bucketExists this' = true
   <-> "my-bucket" ∈ Name <$> [ {| Name := "my-bucket"; CreationDate := "" |} ])
  /\ List.filter is_CreateBucket (sent (events w'))
     = (if bucketExists this' then [] else [CreateBucket "my-bucket"]).
Proof.
  apply (create_iff_not_listed (service := store_model)
           "my-bucket" "/srv/client/dist" stale_store stale_store
           [ {| Name := "my-bucket"; CreationDate := "" |} ]).
  vm_compute. reflexivity.
Defined.

Lemma drain_listed_objects_witness :
  let '(_, _, w') :=
    reconcile (fresh "my-bucket" "/srv/client/dist") (boot stale_store) in
  List.filter is_DeleteObjects (sent (events w'))
  = [ DeleteObjects "my-bucket"
        [ {| IdKey := "old.txt" |}; {| IdKey := "stale.js" |} ] ].
Proof.
  pose proof (drain_listed_objects (service := store_model)
                "my-bucket" "/srv/client/dist" stale_store stale_store
                [ {| Name := "my-bucket"; CreationDate := "" |} ] eq_refl)
    as Hdrain.
  destruct (reconcile (fresh "my-bucket" "/srv/client/dist") (boot stale_store))
    as [[res this'] w'].
  destruct Hdrain as [_ Hlisted].
  destruct (Hlisted ltac:(by constructor)
              [ {| Key := "old.txt"; ETag := ""; Size := 3%N |};
                {| Key := "stale.js"; ETag := ""; Size := 5%N |} ]
              stale_store eq_refl) as [_ (ids & -> & Hids)].
  destruct ids as [|[k1] [|[k2] [|? ?]]]; simpl in Hids; try discriminate.
  by injection Hids as -> ->.
Defined.

Lemma stages_in_order_witness :
  let '(res, _, w') :=
    _processDeployment site_fs site_client (boot stale_store) in
  in_sequence (events w')
  /\ sent (events w')
     = [ ListBuckets; ListObjects "my-bucket";
         DeleteObjects "my-bucket"
           [ {| IdKey := "old.txt" |}; {| IdKey := "stale.js" |} ];
         PutBucketWebsite "my-bucket" website_config;
         PutBucketPolicy "my-bucket" (bucket_policy "my-bucket") ]
  /\ pool w' = [Readdir "/srv/client/dist" site_tree]
  /\ last (events w')
     = Some (Settled (PutBucketPolicy "my-bucket" (bucket_policy "my-bucket"))
                     true).
Proof.
  pose proof (stages_in_order (service := store_model)
                site_fs site_client stale_store) as Horder.
  destruct (_processDeployment site_fs site_client (boot stale_store))
    as [[res this'] w'] eqn:Hrun.
  destruct Horder as (Hseq & _ & _ & Hpool & Hlast).
  assert (Hres : is_resolved res = true).
  { vm_compute in Hrun. by injection Hrun as <- _ _. }
  rewrite Hres in Hpool.
  split; [exact Hseq|]. split; [|by auto].
  pose proof Hrun as Hworld. vm_compute in Hworld.
  injection Hworld as _ _ Hworld. rewrite <- Hworld. reflexivity.
Defined.

Lemma reconcile_converges_witness :
  exists this1 w1,
    reconcile (fresh "my-bucket" "/srv/client/dist") (boot stale_store)
    = (Resolved tt, this1, w1)
    /\ store w1 !! "my-bucket" = Some (reconciled "my-bucket")
    /\ store w1 !! "other-bucket" = None.
Proof.
  destruct (@reconcile_converges "my-bucket" "/srv/client/dist" stale_store)
    as (this1 & w1 & Hrun & Hbucket & _ & Hothers & _).
  exists this1, w1. split; [done|]. split; [done|].
  by rewrite (Hothers "other-bucket").
Defined.

Lemma upload_one_put_per_file_witness :
  let w := @run_loop posix Store store_model 32 site_client
             (_uploadDirectory "/srv/client/dist" site_tree (boot stale_store)) in
  pool w = [] /\
  puts (events w)
  ≡ₚ [ put_of site_client ("/srv/client/dist/index.html",
                           Some (bytes_of "<h1>home</h1>"));
       put_of site_client ("/srv/client/dist/error.html",
                           Some (bytes_of "<h1>oops</h1>"));
       put_of site_client ("/srv/client/dist/css/app.css",
                           Some (bytes_of "h1 {}")) ].
Proof.
  intros w.
  destruct (@run_loop_drains posix Store store_model site_client 32
              (_uploadDirectory "/srv/client/dist" site_tree (boot stale_store)))
    as [Hrun Hempty].
  - reflexivity.
  - by repeat constructor.
  - vm_compute. lia.
  - split; [exact Hempty|].
    exact (proj2 (proj2 (proj2
             (@upload_one_put_per_file posix Store store_model site_client
                stale_store "/srv/client/dist" site_tree eq_refl eq_refl)))
             w Hrun Hempty).
Defined.

Lemma uploads_fire_and_forget_witness :
  exists w1 w2,
    rtc (@step posix Store store_model site_client)
        (_uploadDirectory "/srv/client/dist" (flat_directory 3)
           (boot stale_store)) w1
    /\ rtc (@step posix Store store_model site_client) w1 w2
    /\ length (pool w1) = 3
    /\ forallb is_ReadFile (pool w1) = true
    /\ puts (events w1) = []
    /\ length (pool w2) = 3
    /\ forallb is_Put (pool w2) = true.
Proof.
  exact (proj2 (proj2 (proj2
           (@uploads_fire_and_forget posix Store store_model site_client)))
           3 "/srv/client/dist" stale_store).
Defined.

(** * Further properties of the source *)

(** ** Validation *)

Section ValidationMore.
Context {platform : Platform}.


End ValidationMore.

(** ** Object keys *)

Lemma prefix_append (p r : string) : String.prefix p (p +:+ r) = true.
Proof.
  induction p as [|c p IH]; [by destruct r|].
  rewrite append_String. simpl. by destruct (ascii_dec c c).
Qed.

Lemma substr_append (p r : string) : Js.substr (String.length p) (p +:+ r) = r.
Proof. induction p as [|c p IH]; [reflexivity|]. exact IH. Qed.

Lemma replace_unfold (pat rep s : string) :
  Js.replace pat rep s
  = if String.prefix pat s
    then rep +:+ Js.substr (String.length pat) s
    else match s with
         | EmptyString => EmptyString
         | String c s' => String c (Js.replace pat rep s')
         end.
Proof. by destruct s. Qed.

Lemma replace_at_head (p rep r : string) :
  Js.replace p rep (p +:+ r) = rep +:+ r.
Proof. by rewrite replace_unfold, prefix_append, substr_append. Qed.

Lemma backslash_head (c : ascii) (s : string) :
  String.prefix backslash (String c s) = (nat_of_ascii c =? 92)%nat.
Proof.
  unfold backslash.
  change (String.prefix (String (ascii_of_nat 92) EmptyString) (String c s))
    with (if ascii_dec (ascii_of_nat 92) c
          then String.prefix EmptyString s else false).
  destruct (ascii_dec (ascii_of_nat 92) c) as [<-|Hne].
  - by destruct s.
  - symmetry. apply Nat.eqb_neq. intros Heq. apply Hne.
    by rewrite <- Heq, ascii_nat_embedding.
Qed.

Lemma replace_no_backslash (s : string) :
  no_backslash s = true -> Js.replace backslash slash s = s.
Proof.
  induction s as [|c s IH]; [done|].
  intros [Hc Hs]%andb_true_iff.
  rewrite replace_unfold, backslash_head.
  destruct (nat_of_ascii c =? 92)%nat; [done|]. by rewrite IH.
Qed.

Lemma replace_first_backslash (a b : string) :
  no_backslash a = true ->
  Js.replace backslash slash (a +:+ backslash +:+ b) = a +:+ slash +:+ b.
Proof.
  induction a as [|c a IH].
  - intros _. apply (replace_at_head backslash slash b).
  - intros [Hc Ha]%andb_true_iff. rewrite !append_String.
    rewrite replace_unfold, backslash_head.
    destruct (nat_of_ascii c =? 92)%nat; [done|]. by rewrite IH.
Qed.

(** What [_uploadFile] makes of a path below the client path: the
    client path and the one character after it go. *)
Lemma fileKey_below (this : Client) (c : ascii) (rel : string) :
  fileKey this (clientPath this +:+ String c rel)
  = Js.replace backslash slash rel.
Proof. unfold fileKey. by rewrite replace_at_head. Qed.

Lemma path_join_posix (dir rel : string) :
  @path_join posix dir rel = dir +:+ String (ascii_of_nat 47) rel.
Proof. reflexivity. Qed.

Lemma path_join_win32 (dir rel : string) :
  @path_join win32 dir rel = dir +:+ String (ascii_of_nat 92) rel.
Proof. reflexivity. Qed.

(** X2. With forward-slash separators, a path below the client path
    that holds no backslash gets as key its path relative to the client
    path, unchanged; so two such paths get the same key only if they
    are the same. *)
Theorem key_is_relative_path (this : Client) (rel rel' : string) :
  no_backslash rel = true ->
  no_backslash rel' = true ->
  fileKey this (@path_join posix (clientPath this) rel) = rel
  /\ (fileKey this (@path_join posix (clientPath this) rel)
      = fileKey this (@path_join posix (clientPath this) rel') ->
      rel = rel').
Proof.
  intros Hrel Hrel'.
  rewrite !path_join_posix, !fileKey_below, !replace_no_backslash by done.
  done.
Qed.

(** X3. With backslash separators, the key of a file in a directory
    [a] directly below the client path joins [a] and the rest by a
    forward slash and keeps the rest as it is, backslashes included. *)
Theorem key_turns_first_backslash (this : Client) (a b : string) :
  no_backslash a = true ->
  fileKey this (@path_join win32 (@path_join win32 (clientPath this) a) b)
  = a +:+ "/" +:+ b.
Proof.
  intros Ha. rewrite !path_join_win32.
  rewrite string_app_assoc, append_String, fileKey_below.
  apply (replace_first_backslash a b Ha).
Qed.

(** X4. With forward-slash separators, where a name may hold a
    backslash, a file named [a\b] in the client path and the file [b]
    of its directory [a] are two paths with one key. *)
Theorem keys_collide (this : Client) (a b : string) :
  no_backslash a = true ->
  no_backslash b = true ->
  let named := @path_join posix (clientPath this) (a +:+ backslash +:+ b) in
  let nested := @path_join posix (@path_join posix (clientPath this) a) b in
  named <> nested /\ fileKey this named = fileKey this nested.
Proof.
  intros Ha Hb named nested. unfold named, nested.
  rewrite !path_join_posix. split.
  - rewrite string_app_assoc, append_String.
    intros Heq%String.app_inj. injection Heq as Heq.
    apply String.app_inj in Heq. discriminate Heq.
  - rewrite (string_app_assoc (clientPath this)), append_String.
    rewrite !fileKey_below, replace_first_backslash by done.
    rewrite replace_no_backslash; [done|].
    clear -Ha Hb. induction a as [|c a IH]; simpl in *.
    + by rewrite Hb.
    + apply andb_true_iff in Ha as [-> Ha]. by apply IH.
Qed.

(** ** The chain, once more against any object store *)

Section ChainMore.
Context {platform : Platform} {S : Type} {service : ObjectStore S}.

Ltac open_chain :=
  unfold _processDeployment, reconcile, listObjectsInBucket,
    deleteObjectsFromBucket, createBucket, configureBucket,
    configurePolicyForBucket, listBuckets, request, get_this, call, throw,
    mbind, chain_bind, mret, chain_ret;
  simpl.

Ltac reply :=
  match goal with
  | |- context [s3_listBuckets ?s] =>
      destruct (s3_listBuckets s) as [[?|?] ?] eqn:?
  | |- context [s3_listObjects ?n ?s] =>
      destruct (s3_listObjects n s) as [[[|? ?]|?] ?] eqn:?
  | |- context [s3_deleteObjects ?n ?l ?s] =>
      destruct (s3_deleteObjects n l s) as [[?|?] ?] eqn:?
  | |- context [s3_createBucket ?n ?s] =>
      destruct (s3_createBucket n s) as [[?|?] ?] eqn:?
  | |- context [s3_putBucketWebsite ?n ?c ?s] =>
      destruct (s3_putBucketWebsite n c s) as [[?|?] ?] eqn:?
  | |- context [s3_putBucketPolicy ?n ?c ?s] =>
      destruct (s3_putBucketPolicy n c s) as [[?|?] ?] eqn:?
  end; simpl.

Lemma filter_sent_app (p : Request -> bool) (es es' : list Event) :
  List.filter p (sent (es ++ es'))
  = List.filter p (sent es) ++ List.filter p (sent es').
Proof. by rewrite sent_app, List.filter_app. Qed.

(** X5. Reconciliation never changes the bucket name or the client
    path of the plugin object and never clears [bucketExists]: a plugin
    object on which the flag is already set keeps it, whatever the
    bucket listing says, and sends no create-bucket request. *)
Theorem flag_is_never_cleared (this : Client) (w : World S) :
  let '(_, this', w') := reconcile this w in
  bucketName this' = bucketName this
  /\ clientPath this' = clientPath this
  /\ (bucketExists this = true ->
      bucketExists this' = true
      /\ List.filter is_CreateBucket (sent (events w'))
         = List.filter is_CreateBucket (sent (events w))).
Proof.
  destruct this as [name path b]. destruct w as [s es ts cr].
  open_chain. reply; [|by rewrite filter_sent_app, app_nil_r].
  rewrite discover. simpl.
  destruct b; simpl.
  - repeat reply; rewrite ?filter_sent_app; simpl; by rewrite ?app_nil_r.
  - destruct (bool_decide _); simpl; repeat reply; done.
Qed.

Ltac replayed :=
  repeat (simpl;
          match goal with
          | E : ?op = (_, _) |- context [?op] => rewrite E
          end);
  simpl; reflexivity.

(** A rejected chain is rejected by its last request, with what the
    store answered to it in the state the earlier requests left. *)
Lemma reconcile_rejection (this this' : Client) (s : S) (w' : World S)
  (e : Rejection) :
  reconcile this (boot s) = (Rejected e, this', w') ->
  exists r,
    last (sent (events w')) = Some r
    /\ perform r (replay (removelast (sent (events w'))) s)
       = (Rejected e, store w').
Proof.
  destruct this as [name path b].
  open_chain. reply.
  2: { intros [= <- _ <-]. eexists. split; [reflexivity|]. replayed. }
  rewrite discover. simpl.
  destruct (b || bool_decide _); simpl; repeat reply;
    intros Hrun; try discriminate Hrun;
    injection Hrun as <- _ <-;
    (eexists; split; [reflexivity|]; replayed).
Qed.

(** X6. A deployment that is rejected is rejected either by validation,
    with one of its two errors and before anything was sent, or by the
    last request it sent, with the very rejection that the store
    returned for that request in the state in which the requests
    before it had left the store; so the chain itself adds no failure,
    and in particular never fails on reading [Contents] of an undefined
    listing. *)
Theorem rejection_is_surfaced_unchanged (serverless : Serverless)
  (fs : FileSystem) (s : S) (w' : World S) (e : Rejection) :
  deploy serverless fs (boot s) = (Rejected e, w') ->
  (e = MissingBuildOutput /\ w' = boot s)
  \/ (e = MissingConfiguration /\ w' = boot s)
  \/ exists r,
       last (sent (events w')) = Some r
       /\ perform r (replay (removelast (sent (events w'))) s)
          = (Rejected e, store w').
Proof.
  unfold deploy.
  destruct (_validateAndPrepare serverless fs) as [this|e0] eqn:Hvalid.
  - unfold _processDeployment, mbind, chain_bind.
    destruct (reconcile this (boot s)) as [[[[]|e1] this1] w1] eqn:Hrun; simpl.
    + done.
    + intros [= <- <-]. right. right. by eapply reconcile_rejection.
  - intros [= <- <-]. revert Hvalid.
    unfold _validateAndPrepare.
    destruct (dirExistsSync _); simpl; [|intros [= <-]; by left].
    destruct (custom serverless) as [cust|]; simpl;
      [|intros [= <-]; by right; left].
    destruct (custom_client cust) as [settings|]; simpl;
      [|intros [= <-]; by right; left].
    destruct (Js.truthy _); simpl; [done|].
    intros [= <-]. by right; left.
Qed.

(** Reconciliation leaves the upload alone: it starts nothing and
    sends no put-object request. *)
Lemma reconcile_quiet (this : Client) (w : World S) :
  let '(_, this', w') := reconcile this w in
  bucketName this' = bucketName this
  /\ clientPath this' = clientPath this
  /\ pool w' = pool w
  /\ puts (events w') = puts (events w)
  /\ landed (events w') = landed (events w)
  /\ put_failures (events w') = put_failures (events w).
Proof.
  destruct this as [name path b]. destruct w as [s es ts cr].
  open_chain. reply.
  2: { unfold landed, put_failures. rewrite puts_app, !omap_app. simpl.
       by rewrite !app_nil_r. }
  rewrite discover. simpl.
  destruct (b || bool_decide _); simpl; repeat reply;
    unfold landed, put_failures; rewrite ?puts_app, ?omap_app; simpl;
    by rewrite ?app_nil_r.
Qed.

End ChainMore.

(** ** The event loop on any tree *)

Section LoopMore.
Context {platform : Platform} {S : Type} {service : ObjectStore S}.

Lemma weight_positive (node : FsNode) : 0 < weight node.
Proof. destruct node; simpl; lia. Qed.

(** Completing an operation uses up a turn, whatever it finds. *)
Lemma complete_turns (this : Client) (t : Task) (w : World S) :
  total_turns (pool (complete this t w)) < total_turns (pool w) + turns t.
Proof.
  destruct w as [s es ts cr].
  destruct t as [path node|path node|filePath key node|b k body ct]; simpl.
  - pose proof (weight_positive node). unfold on_readdir.
    destruct node as [contents|[|] entries|]; simpl in *; try lia.
    fold (stats_of path entries).
    rewrite total_turns_app, stats_of_turns. lia.
  - unfold on_stat.
    destruct node as [contents|readable entries|]; simpl;
      rewrite ?total_turns_app; unfold total_turns; simpl; lia.
  - unfold on_readFile. destruct (fs_readFile node) as [err fileBuffer].
    simpl. rewrite total_turns_app. unfold total_turns. simpl. lia.
  - unfold on_put. simpl. destruct (s3_putObject b k body ct s) as [res s'].
    simpl. lia.
Qed.

Lemma step_turns (this : Client) (w w' : World S) :
  step this w w' -> total_turns (pool w') < total_turns (pool w).
Proof.
  intros [w0 before t after _ Hpool]. rewrite Hpool.
  pose proof (complete_turns this t (set_pool (before ++ after) w0)) as Hlt.
  replace (pool (set_pool (before ++ after) w0)) with (before ++ after) in Hlt
    by (by destruct w0).
  rewrite total_turns_app in *. unfold total_turns in *. simpl. lia.
Qed.

(** X7. The upload comes to an end on every tree, healthy or not: a
    run from the call of [_uploadDirectory] on a tree has at most as
    many turns as the tree has operations to complete (one per
    directory listing, status query, file read and put-object request),
    which is its [weight]. *)
Theorem upload_run_is_bounded (this : Client) (s : S) (rootPath : string)
  (root : FsNode) (n : nat) (w : World S) :
  nsteps (step this) n (_uploadDirectory rootPath root (boot s)) w ->
  n <= weight root.
Proof.
  assert (Hbound : forall (w1 w2 : World S),
             nsteps (step this) n w1 w2 ->
             n + total_turns (pool w2) <= total_turns (pool w1)).
  { induction 1 as [w1|n w1 w2 w3 Hstep _ IH]; [done|].
    apply step_turns in Hstep. lia. }
  intros Hrun%Hbound. unfold total_turns in Hrun at 2. simpl in Hrun. lia.
Qed.

Lemma run_loop_is_run (this : Client) (fuel : nat) :
  forall w : World S, rtc (step this) w (run_loop fuel this w).
Proof.
  induction fuel as [|fuel IH]; intros w; simpl; [done|].
  destruct (crashed w) eqn:Hcr; [done|].
  destruct (pool w) as [|t ts] eqn:Hpool; [done|].
  eapply rtc_l; [|apply IH].
  by apply (step_complete this w [] t ts).
Qed.

Lemma expected_reachable (this : Client) (node : FsNode) :
  forall path,
    expected this path node = put_of this <$> reachable_files path node.
Proof.
  induction node as [contents|readable entries IH|] using FsNode_tree_ind;
    intros path; simpl; try done.
  destruct readable; [|done].
  induction entries as [|e entries IHentries]; simpl; [done|].
  inversion IH as [|? ? IHe IHrest]; subst.
  by rewrite IHe, IHentries, fmap_app.
Qed.

(** X8. On every tree, at every moment of every run the put-object
    requests sent so far are among those of the files that lie under
    readable directories, each at most once; and when nothing is left
    in flight there has been exactly one for each of them, with the
    buffer that reading gave, undefined for an unreadable file. A file
    below an unreadable directory gets none, and neither does anything
    when the root is not a directory. *)
Theorem puts_follow_reachable_files (this : Client) (s : S)
  (rootPath : string) (root : FsNode) (w : World S) :
  rtc (step this) (_uploadDirectory rootPath root (boot s)) w ->
  let files :=
    if dirExistsSync root then reachable_files rootPath root else [] in
  puts (events w) ⊆+ put_of this <$> files
  /\ (pool w = [] -> puts (events w) ≡ₚ put_of this <$> files).
Proof.
  intros Hrun files.
  assert (Hstart : puts (events (_uploadDirectory rootPath root (boot s)))
                   ++ flat_map (pending this)
                        (pool (_uploadDirectory rootPath root (boot s)))
                   = put_of this <$> files).
  { unfold files. destruct root as [contents|readable entries|];
      [done| |done].
    change (dirExistsSync (Dir readable entries)) with true. cbv iota.
    rewrite <- (expected_reachable this (Dir readable entries) rootPath).
    simpl. by rewrite app_nil_r. }
  pose proof (run_conserves this _ w Hrun) as Hkeep.
  rewrite Hstart in Hkeep. split.
  - rewrite <- Hkeep. by apply submseteq_inserts_r.
  - intros Hempty. rewrite <- Hkeep, Hempty. simpl. by rewrite app_nil_r.
Qed.

(** *** A path whose status query fails *)

Lemma stats_reach_broken (path : string) (entries : list (string * FsNode)) :
  existsb (fun e => reaches_broken (snd e)) entries = true ->
  exists t, t ∈ stats_of path entries /\ task_reaches_broken t = true.
Proof.
  unfold stats_of.
  induction entries as [|e entries IH]; simpl; [done|].
  intros [He|Hrest]%orb_true_iff.
  - eexists. split; [by constructor|done].
  - destruct (IH Hrest) as (t & Hin & Ht).
    exists t. split; [by constructor|done].
Qed.

(** Until the process ends, an operation that leads to the failing path
    stays in flight. *)
Lemma step_towards_broken (this : Client) (w w' : World S) :
  step this w w' ->
  (exists t, t ∈ pool w /\ task_reaches_broken t = true) ->
  crashed w' = true
  \/ exists t, t ∈ pool w' /\ task_reaches_broken t = true.
Proof.
  intros [w0 before t after Hcr Hpool] (t0 & Hin & Ht0).
  rewrite Hpool in Hin.
  assert (Hkept : forall t1, t1 ∈ before ++ after ->
                             t1 ∈ pool (complete this t
                                          (set_pool (before ++ after) w0))).
  { intros t1 Ht1. destruct w0 as [s es ts cr]. simpl in *.
    destruct t as [path node|path node|filePath key node|b k body ct]; simpl.
    - unfold on_readdir. destruct (fs_readdir node) as [[err|] files];
        simpl; [done|]. apply elem_of_app. by left.
    - unfold on_stat. destruct (fs_stat node) as [err [stats|]]; simpl;
        [|done]. destruct (isDirectory stats); simpl;
        apply elem_of_app; by left.
    - unfold on_readFile. destruct (fs_readFile node). simpl.
      apply elem_of_app. by left.
    - unfold on_put. simpl. by destruct (s3_putObject b k body ct s). }
  apply elem_of_app in Hin as [Hin|Hin%elem_of_cons].
  { right. exists t0. split; [|done]. apply Hkept, elem_of_app. by left. }
  destruct Hin as [->|Hin].
  2: { right. exists t0. split; [|done]. apply Hkept, elem_of_app. by right. }
  destruct w0 as [s es ts cr]. simpl in *.
  destruct t as [path node|path node|filePath key node|b k body ct];
    simpl in *; try done.
  - destruct node as [contents|[|] entries|]; try done.
    right. destruct (stats_reach_broken path entries Ht0) as (t1 & Hin1 & Ht1).
    exists t1. split; [|done]. unfold on_readdir. simpl.
    apply elem_of_app. by right.
  - destruct node as [contents|[|] entries|]; try done.
    + right. exists (Readdir path (Dir true entries)). split; [|exact Ht0].
      unfold on_stat. simpl. apply elem_of_app. right. by constructor.
    + by left.
Qed.

Lemma crash_is_last (this : Client) (w w' : World S) :
  step this w w' ->
  crashed w' = true ->
  last (events w')
  = Some (Uncaught (TypeError "Cannot read property 'isDirectory' of undefined")).
Proof.
  intros [w0 before t after Hcr Hpool]. destruct w0 as [s es ts cr].
  simpl in *. subst cr.
  destruct t as [path node|path node|filePath key node|b k body ct]; simpl.
  - unfold on_readdir. by destruct (fs_readdir node) as [[err|] files].
  - unfold on_stat. destruct (fs_stat node) as [err [stats|]]; simpl.
    + by destruct (isDirectory stats).
    + intros _. by rewrite last_snoc.
  - unfold on_readFile. by destruct (fs_readFile node).
  - unfold on_put. simpl. by destruct (s3_putObject b k body ct s).
Qed.

(** X9. When the root is a directory and a path whose status query
    fails lies under readable directories, no run finishes the upload:
    every run that can go no further has ended the process, and the
    last thing that happened is the TypeError thrown out of the
    [fs.stat] callback. *)
Theorem dangling_entry_ends_the_process (this : Client) (s : S)
  (rootPath : string) (root : FsNode) (w : World S) :
  dirExistsSync root = true ->
  reaches_broken root = true ->
  rtc (step this) (_uploadDirectory rootPath root (boot s)) w ->
  (forall w', ~ step this w w') ->
  crashed w = true
  /\ last (events w)
     = Some (Uncaught (TypeError "Cannot read property 'isDirectory' of undefined")).
Proof.
  intros Hdir Hbroken Hrun Hstuck.
  assert (Hinv : (crashed w = true
                  /\ last (events w)
                     = Some (Uncaught (TypeError
                          "Cannot read property 'isDirectory' of undefined")))
                 \/ (crashed w = false
                     /\ exists t, t ∈ pool w /\ task_reaches_broken t = true)).
  { clear Hstuck. revert w Hrun. apply rtc_ind_r; [|intros w1 w2 Hrun Hstep IH].
    - right. split; [done|]. eexists. split; [by constructor|].
      destruct root as [contents|[|] entries|]; done.
    - destruct IH as [[Hcr _]|[Hcr Hpending]].
      + destruct Hstep as [? ? ? ? Hcr' _]. congruence.
      + destruct (crashed w2) eqn:Hcr2.
        * left. split; [done|]. by eapply crash_is_last.
        * right. split; [done|].
          by destruct (step_towards_broken this w1 w2 Hstep Hpending)
            as [?|?]; [congruence|]. }
  destruct Hinv as [?|[Hcr (t & Hin & _)]]; [done|].
  exfalso. apply list_elem_of_split in Hin as (before & after & Hpool).
  by eapply Hstuck, (step_complete this w before t after).
Qed.

End LoopMore.

(** ** The upload into the object store of the specification *)

Section StoreMore.
Context {platform : Platform}.

Lemma landed_app (es es' : list Event) :
  landed (es ++ es') = landed es ++ landed es'.
Proof. apply omap_app. Qed.

Lemma put_failures_app (es es' : list Event) :
  put_failures (es ++ es') = put_failures es ++ put_failures es'.
Proof. apply omap_app. Qed.

Lemma in_flight_app (ts ts' : list Task) :
  in_flight (ts ++ ts') = in_flight ts ++ in_flight ts'.
Proof. apply omap_app. Qed.

Lemma in_flight_stats (path : string) (entries : list (string * FsNode)) :
  in_flight (stats_of path entries) = [].
Proof.
  unfold stats_of. induction entries as [|e entries IH]; [done|]. exact IH.
Qed.

Lemma targets_stats (this : Client) (path : string)
  (entries : list (string * FsNode)) :
  Forall (targets this) (stats_of path entries).
Proof.
  unfold stats_of. induction entries as [|e entries IH]; by constructor.
Qed.

(** Puts applied one after the other: the later one wins a key. *)
Lemma foldl_store_put (l : list Request) (os : gmap string StoredObject) :
  foldl store_put os l = list_to_map (reverse (omap stored l)) ∪ os.
Proof.
  induction l as [|r l IH] using rev_ind.
  - simpl. by rewrite (left_id_L ∅ (∪)).
  - rewrite foldl_app, omap_app. simpl. rewrite IH. unfold store_put.
    destruct (stored r) as [[k v]|]; simpl.
    + rewrite reverse_snoc. simpl. by rewrite insert_union_l.
    + by rewrite app_nil_r.
Qed.

Lemma stored_put_of (this : Client) (files : list (string * option Buffer)) :
  omap stored (put_of this <$> files) = object_of this <$> files.
Proof.
  induction files as [|f files IH]; [done|]. simpl. f_equal. exact IH.
Qed.

Lemma during_upload_step (this : Client) (initial : Bucket) (s0 : Store)
  (w w' : World Store) :
  step this w w' ->
  during_upload this initial s0 w ->
  during_upload this initial s0 w'.
Proof.
  intros [w0 before t after _ Hpool] (Hstore & Hsent & Htargets & Hnone).
  destruct w0 as [s es ts cr]. simpl in *. subst ts.
  rewrite in_flight_app in Hsent.
  apply Forall_app in Htargets as [Hbefore Hafter].
  apply Forall_cons in Hafter as [Ht Hafter].
  assert (Hrest : Forall (targets this) (before ++ after))
    by (by apply Forall_app).
  destruct t as [path node|path node|filePath key node|b k body ct];
    simpl in *.
  - unfold on_readdir, during_upload.
    destruct node as [contents|[|] entries|]; simpl;
      rewrite ?in_flight_app in *; try done.
    fold (stats_of path entries).
    rewrite in_flight_stats, app_nil_r.
    repeat split; try done.
    apply Forall_app. split; [done|apply targets_stats].
  - unfold on_stat, during_upload.
    destruct node as [contents|readable entries|]; simpl;
      rewrite ?in_flight_app, ?landed_app, ?puts_app, ?put_failures_app;
      simpl; rewrite ?app_nil_r; repeat split; try done;
      try (apply Forall_app; split; [done|by repeat constructor]).
  - unfold on_readFile, during_upload.
    destruct (fs_readFile node) as [err fileBuffer]. simpl.
    rewrite !in_flight_app, landed_app, puts_app, put_failures_app.
    simpl. rewrite !app_nil_r. repeat split; try done.
    + rewrite <- Hsent. by rewrite <- !app_assoc.
    + apply Forall_app. split; [done|by repeat constructor].
  - subst b. unfold on_put, during_upload. simpl. unfold on_bucket.
    assert (Hthere : s !! bucketName this
                     = Some {| objects := foldl store_put (objects initial)
                                                (landed es);
                               website := website initial;
                               policy := policy initial |})
      by (by rewrite Hstore, lookup_insert_eq).
    rewrite Hthere. simpl.
    rewrite landed_app, puts_app, put_failures_app, in_flight_app.
    simpl. rewrite !app_nil_r, Hnone. repeat split; try done.
    + rewrite Hstore at 1. rewrite insert_insert_eq. unfold set_objects.
      simpl. by rewrite foldl_app.
    + rewrite <- Hsent. simpl. rewrite <- !app_assoc.
      apply Permutation_app_head. simpl.
      apply Permutation_middle.
Qed.

Lemma during_upload_run (this : Client) (initial : Bucket) (w1 w : World Store)
  (rootPath : string) (root : FsNode) :
  store w1 !! bucketName this = Some initial ->
  pool w1 = [] ->
  puts (events w1) = [] ->
  landed (events w1) = [] ->
  put_failures (events w1) = [] ->
  rtc (step this) (_uploadDirectory rootPath root w1) w ->
  during_upload this initial (store w1) w.
Proof.
  intros Hthere Hpool Hputs Hlanded Hnone Hrun.
  revert w Hrun. apply rtc_ind_r.
  - unfold during_upload. simpl. rewrite Hpool, Hputs, Hlanded. simpl.
    repeat split; try done.
    + symmetry. apply insert_id. rewrite Hthere. by destruct initial.
    + by repeat constructor.
  - intros w2 w3 _ Hstep IH. by eapply during_upload_step.
Qed.

(** The store at the end of an upload that began in [w1]. *)
Lemma upload_outcome (this : Client) (initial : Bucket) (w1 w : World Store)
  (rootPath : string) (root : FsNode) :
  store w1 !! bucketName this = Some initial ->
  pool w1 = [] ->
  puts (events w1) = [] ->
  landed (events w1) = [] ->
  put_failures (events w1) = [] ->
  dirExistsSync root = true ->
  NoDup (fst <$> (object_of this <$> reachable_files rootPath root)) ->
  rtc (step this) (_uploadDirectory rootPath root w1) w ->
  pool w = [] ->
  store w
  = <[bucketName this :=
        {| objects := uploaded this (reachable_files rootPath root)
                      ∪ objects initial;
           website := website initial;
           policy := policy initial |}]> (store w1).
Proof.
  intros Hthere Hpool Hputs Hlanded Hnone Hdir Hkeys Hrun Hempty.
  destruct (during_upload_run this initial w1 w rootPath root)
    as (Hstore & Hsent & _ & _); try done.
  pose proof (run_conserves this _ w Hrun) as Hkeep.
  rewrite Hempty in Hsent, Hkeep. simpl in Hsent, Hkeep.
  rewrite app_nil_r in Hsent.
  rewrite app_nil_r, Hpool, Hputs in Hkeep. simpl in Hkeep.
  rewrite app_nil_r in Hkeep.
  assert (Hall : landed (events w)
                 ≡ₚ put_of this <$> reachable_files rootPath root).
  { rewrite Hsent, Hkeep. destruct root as [contents|readable entries|];
      try done. by rewrite (expected_reachable this (Dir readable entries)). }
  rewrite Hstore. f_equal. f_equal.
  rewrite foldl_store_put. f_equal. unfold uploaded.
  rewrite <- stored_put_of. symmetry.
  apply list_to_map_proper.
  - by rewrite stored_put_of.
  - etrans; [|symmetry; apply reverse_Permutation].
    apply omap_Permutation. by symmetry.
Qed.

Lemma object_of_same_path (this this' : Client) (file : string * option Buffer) :
  clientPath this' = clientPath this ->
  object_of this' file = object_of this file.
Proof. intros Hpath. unfold object_of, fileKey. by rewrite Hpath. Qed.

(** X10. On the store model, an upload into a bucket that is there,
    from a root that is a directory whose reachable files get distinct
    keys, ends with the same store whatever the order in which the
    operations complete: the bucket holds one object per reachable
    file, under its key, with its content type and with what reading it
    gave as body (empty when that was undefined), over what the bucket
    held before; its website configuration and policy are as they were. *)
Theorem upload_fills_the_bucket (this : Client) (s : Store) (initial : Bucket)
  (rootPath : string) (root : FsNode) (w : World Store) :
  s !! bucketName this = Some initial ->
  dirExistsSync root = true ->
  NoDup ((fun file => fileKey this (fst file))
           <$> reachable_files rootPath root) ->
  rtc (step this) (_uploadDirectory rootPath root (boot s)) w ->
  pool w = [] ->
  store w
  = <[bucketName this :=
        {| objects := uploaded this (reachable_files rootPath root)
                      ∪ objects initial;
           website := website initial;
           policy := policy initial |}]> s.
Proof.
  intros Hthere Hdir Hkeys Hrun Hempty.
  apply (upload_outcome this initial (boot s) w rootPath root); try done.
  by rewrite <- list_fmap_compose.
Qed.

(** X11. On the store model, throughout an upload into a bucket that
    is there, no put-object request fails, the bucket keeps its website
    configuration and its policy, and no other bucket changes. *)
Theorem upload_touches_only_objects (this : Client) (s : Store)
  (initial : Bucket) (rootPath : string) (root : FsNode) (w : World Store) :
  s !! bucketName this = Some initial ->
  rtc (step this) (_uploadDirectory rootPath root (boot s)) w ->
  put_failures (events w) = []
  /\ (exists b, store w !! bucketName this = Some b
                /\ website b = website initial
                /\ policy b = policy initial)
  /\ (forall other, other <> bucketName this -> store w !! other = s !! other).
Proof.
  intros Hthere Hrun.
  destruct (during_upload_run this initial (boot s) w rootPath root)
    as (Hstore & _ & _ & Hnone); try done.
  simpl in Hstore. split; [done|]. split.
  - eexists. split; [by rewrite Hstore, lookup_insert_eq|done].
  - intros other Hother. by rewrite Hstore, lookup_insert_ne.
Qed.

(** The whole deployment on the store model, from a plugin object on
    which [bucketExists] is not set. *)
Lemma deployment_ends (fs : FileSystem) (this : Client) (s : Store) :
  bucketExists this = false ->
  dirExistsSync (fs (clientPath this)) = true ->
  NoDup ((fun file => fileKey this (fst file))
           <$> reachable_files (clientPath this) (fs (clientPath this))) ->
  let run := _processDeployment fs this (boot s) in
  fst (fst run) = Resolved tt
  /\ forall w,
       rtc (step (snd (fst run))) (snd run) w ->
       pool w = [] ->
       store w
       = <[bucketName this :=
             {| objects := uploaded this
                             (reachable_files (clientPath this)
                                              (fs (clientPath this)));
                website := Some website_config;
                policy := Some (bucket_policy (bucketName this)) |}]> s.
Proof.
  intros Hflag Hdir Hkeys run. unfold run, _processDeployment, mbind, chain_bind.
  pose proof (reconcile_quiet this (boot s)) as Hquiet.
  destruct (reconcile_model this (boot s)) as (this' & w1 & Hrun & _ & Hstore).
  { by intros _. }
  rewrite Hrun in *. simpl in *.
  destruct Hquiet as (Hname & Hpath & Hpool & Hputs & Hlanded & Hnone).
  split; [done|]. intros w Hupload Hempty.
  unfold get_this, call in Hupload. simpl in Hupload.
  rewrite Hpath in *.
  rewrite (upload_outcome this' (reconciled (bucketName this)) w1 w
             (clientPath this) (fs (clientPath this))); try done.
  - rewrite Hname, Hstore, insert_insert_eq. simpl.
    rewrite (right_id_L ∅ (∪)). unfold uploaded.
    do 3 f_equal. apply list_fmap_ext. intros _ file _.
    by apply object_of_same_path.
  - by rewrite Hname, Hstore, lookup_insert_eq.
  - rewrite <- list_fmap_compose.
    erewrite list_fmap_ext; [exact Hkeys|].
    intros _ file _. simpl. unfold fileKey. by rewrite Hpath.
Qed.

(** X12. On the store model, a deployment that passed validation
    resolves, and when the reachable files of the build directory get
    distinct keys, every run of the upload that leaves nothing in
    flight ends with the same store: the configured bucket holds
    exactly one object per reachable file and nothing that was there
    before, with the website configuration and the public-read policy;
    the other buckets are as they were. *)
Theorem deployment_outcome (serverless : Serverless) (fs : FileSystem)
  (s : Store) (this : Client) :
  _validateAndPrepare serverless fs = Resolved this ->
  NoDup ((fun file => fileKey this (fst file))
           <$> reachable_files (clientPath this) (fs (clientPath this))) ->
  let run := _processDeployment fs this (boot s) in
  fst (fst run) = Resolved tt
  /\ forall w,
       rtc (step (snd (fst run))) (snd run) w ->
       pool w = [] ->
       store w
       = <[bucketName this :=
             {| objects := uploaded this
                             (reachable_files (clientPath this)
                                              (fs (clientPath this)));
                website := Some website_config;
                policy := Some (bucket_policy (bucketName this)) |}]> s.
Proof.
  intros Hvalid Hkeys.
  destruct (validate_fresh serverless fs this Hvalid)
    as (Hflag & Hpath & _ & _).
  apply deployment_ends; try done.
  rewrite Hpath. revert Hvalid. unfold _validateAndPrepare, dist_path.
  by destruct (dirExistsSync _).
Qed.

(** X13. On the store model, deploying again changes nothing: when a
    deployment that passed validation has left nothing in flight, a
    second deployment of the same build directory from the store it
    left, run until nothing is in flight, leaves that very store,
    whatever the order of completion in either. *)
Theorem redeployment_changes_nothing (serverless : Serverless)
  (fs : FileSystem) (s : Store) (this : Client) :
  _validateAndPrepare serverless fs = Resolved this ->
  NoDup ((fun file => fileKey this (fst file))
           <$> reachable_files (clientPath this) (fs (clientPath this))) ->
  let first := _processDeployment fs this (boot s) in
  forall w,
    rtc (step (snd (fst first))) (snd first) w ->
    pool w = [] ->
    let second := _processDeployment fs this (boot (store w)) in
    forall w',
      rtc (step (snd (fst second))) (snd second) w' ->
      pool w' = [] ->
      store w' = store w.
Proof.
  intros Hvalid Hkeys first w Hrun Hempty second w' Hrun' Hempty'.
  destruct (validate_fresh serverless fs this Hvalid)
    as (Hflag & Hpath & _ & _).
  assert (Hdir : dirExistsSync (fs (clientPath this)) = true).
  { rewrite Hpath. revert Hvalid. unfold _validateAndPrepare, dist_path.
    by destruct (dirExistsSync _). }
  destruct (deployment_ends fs this s Hflag Hdir Hkeys) as [_ Hfirst].
  destruct (deployment_ends fs this (store w) Hflag Hdir Hkeys) as [_ Hsecond].
  rewrite (Hsecond w' Hrun' Hempty'), (Hfirst w Hrun Hempty).
  by rewrite insert_insert_eq.
Qed.

(** X14. On the store model, a plugin object on which [bucketExists]
    is already set and whose bucket is not in the store does not create
    it: the chain is rejected by list-objects with NoSuchBucket after
    two requests, and the store is as it was. *)
Theorem stale_flag_fails_instead_of_creating (this : Client) (s : Store) :
  bucketExists this = true ->
  s !! bucketName this = None ->
  exists this' w',
    reconcile this (boot s) = (Rejected no_such_bucket, this', w')
    /\ store w' = s
    /\ sent (events w') = [ListBuckets; ListObjects (bucketName this)].
Proof.
  destruct this as [name path b]. simpl. intros -> Hnone.
  unfold reconcile, listObjectsInBucket, deleteObjectsFromBucket,
    createBucket, configureBucket, configurePolicyForBucket, listBuckets,
    request, get_this, call, throw, mbind, chain_bind, mret, chain_ret.
  simpl. rewrite discover. simpl. rewrite Hnone. simpl.
  by eexists _, _.
Qed.

End StoreMore.

(** ** Instances of the further properties *)

Example plain_directories :
  @plain_directory posix "/srv/app" = true
  /\ @plain_directory posix "/srv/app/" = false
  /\ @plain_directory posix "/" = false
  /\ @plain_directory posix "/srv//app" = false
  /\ @plain_directory posix "/srv/../app" = false
  /\ @plain_directory posix "" = false
  /\ @plain_directory win32 "C:\proj" = true
  /\ @plain_directory win32 "C:\proj\" = false
  /\ @plain_directory win32 "C:/proj//app" = false.
Proof. by vm_compute. Qed.


Lemma key_is_relative_path_witness :
  fileKey site_client (@path_join posix (clientPath site_client) "css/app.css")
  = "css/app.css".
Proof.
  apply (proj1 (key_is_relative_path site_client "css/app.css" "index.html"
                  eq_refl eq_refl)).
Defined.

Lemma key_turns_first_backslash_witness :
  fileKey windows_client
    (@path_join win32 (@path_join win32 (clientPath windows_client) "css")
       "fonts\a.woff")
  = "css" +:+ "/" +:+ "fonts\a.woff".
Proof.
  apply (key_turns_first_backslash windows_client "css" "fonts\a.woff").
  reflexivity.
Defined.

Lemma keys_collide_witness :
  @path_join posix (clientPath site_client) ("a" +:+ backslash +:+ "b")
  <> @path_join posix (@path_join posix (clientPath site_client) "a") "b"
  /\ fileKey site_client
       (@path_join posix (clientPath site_client) ("a" +:+ backslash +:+ "b"))
     = fileKey site_client
         (@path_join posix (@path_join posix (clientPath site_client) "a") "b").
Proof.
  apply (keys_collide site_client "a" "b"); reflexivity.
Defined.

Lemma rejection_is_surfaced_unchanged_witness :
  let w' := emit [Sent ListBuckets; Settled ListBuckets false] (boot tt) in
  (unreachable = MissingBuildOutput /\ w' = boot tt)
  \/ (unreachable = MissingConfiguration /\ w' = boot tt)
  \/ exists r,
       last (sent (events w')) = Some r
       /\ @perform unit offline r
            (@replay unit offline (removelast (sent (events w'))) tt)
          = (Rejected unreachable, store w').
Proof.
  intros w'.
  apply (rejection_is_surfaced_unchanged (platform := posix)
           (service := offline) site_config site_fs tt w' unreachable).
  reflexivity.
Defined.

Lemma upload_run_is_bounded_witness :
  exists n,
    nsteps (step (platform := posix) (service := store_model) site_client) n
      (_uploadDirectory "/srv/client/dist" site_tree (boot stale_store))
      (run_loop (platform := posix) 32 site_client
         (_uploadDirectory "/srv/client/dist" site_tree (boot stale_store)))
    /\ n <= 12.
Proof.
  destruct (rtc_nsteps_1 _ _
              (run_loop_is_run (platform := posix) (service := store_model)
                 site_client 32
                 (_uploadDirectory "/srv/client/dist" site_tree
                    (boot stale_store)))) as [n Hn].
  exists n. split; [exact Hn|].
  exact (upload_run_is_bounded site_client stale_store "/srv/client/dist"
           site_tree n _ Hn).
Defined.

Lemma puts_follow_reachable_files_witness :
  puts (events (run_loop (platform := posix) (service := store_model) 32
                  site_client
                  (_uploadDirectory "/srv/client/dist" hidden_tree
                     (boot stale_store))))
  ≡ₚ [ put_of site_client ("/srv/client/dist/index.html",
                           Some (bytes_of "<h1>home</h1>")) ].
Proof.
  apply (proj2 (puts_follow_reachable_files (platform := posix)
                  (service := store_model) site_client stale_store
                  "/srv/client/dist" hidden_tree _
                  (run_loop_is_run site_client 32 _))).
  vm_compute; reflexivity.
Defined.

Lemma dangling_entry_ends_the_process_witness :
  crashed (run_loop (platform := posix) (service := store_model) 32
             site_client
             (_uploadDirectory "/srv/client/dist" faulty_tree
                (boot stale_store)))
  = true
  /\ last (events (run_loop (platform := posix) (service := store_model) 32
                     site_client
                     (_uploadDirectory "/srv/client/dist" faulty_tree
                        (boot stale_store))))
     = Some (Uncaught (TypeError "Cannot read property 'isDirectory' of undefined")).
Proof.
  apply (dangling_entry_ends_the_process (platform := posix)
           (service := store_model) site_client stale_store
           "/srv/client/dist" faulty_tree).
  - vm_compute; reflexivity.
  - vm_compute; reflexivity.
  - apply run_loop_is_run.
  - intros w' Hstep. inversion Hstep as [? ? ? ? Hcr _].
    vm_compute in Hcr. discriminate Hcr.
Defined.

Lemma site_keys_distinct :
  NoDup ((fun file => fileKey site_client (fst file))
           <$> @reachable_files posix "/srv/client/dist" site_tree).
Proof. apply (bool_decide_unpack _). vm_compute. exact I. Defined.

Lemma upload_fills_the_bucket_witness :
  store (run_loop (platform := posix) (service := store_model) 32 site_client
           (_uploadDirectory "/srv/client/dist" site_tree (boot stale_store)))
  = <["my-bucket" :=
        {| objects :=
             uploaded site_client
               (@reachable_files posix "/srv/client/dist" site_tree)
             ∪ objects stale_bucket;
           website := None;
           policy := None |}]> stale_store.
Proof.
  apply (upload_fills_the_bucket (platform := posix) site_client stale_store
           stale_bucket "/srv/client/dist" site_tree).
  - vm_compute; reflexivity.
  - vm_compute; reflexivity.
  - exact site_keys_distinct.
  - apply run_loop_is_run.
  - vm_compute; reflexivity.
Defined.

Lemma upload_touches_only_objects_witness :
  put_failures
    (events (run_loop (platform := posix) (service := store_model) 32
               site_client
               (_uploadDirectory "/srv/client/dist" faulty_tree
                  (boot stale_store))))
  = [].
Proof.
  apply (upload_touches_only_objects (platform := posix) site_client
           stale_store stale_bucket "/srv/client/dist" faulty_tree).
  - vm_compute; reflexivity.
  - apply run_loop_is_run.
Defined.

Lemma deployment_outcome_witness :
  let run := _processDeployment (service := store_model) site_fs site_client
               (boot stale_store) in
  fst (fst run) = Resolved tt
  /\ store (run_loop (platform := posix) 32 (snd (fst run)) (snd run))
     = <["my-bucket" :=
           {| objects :=
                uploaded site_client
                  (@reachable_files posix "/srv/client/dist" site_tree);
              website := Some website_config;
              policy := Some (bucket_policy "my-bucket") |}]> stale_store.
Proof.
  intros run.
  destruct (deployment_outcome (platform := posix) site_config site_fs
              stale_store site_client eq_refl site_keys_distinct)
    as [Hresolved Hstore].
  split; [exact Hresolved|].
  apply Hstore.
  - apply run_loop_is_run.
  - vm_compute; reflexivity.
Defined.

Lemma redeployment_changes_nothing_witness :
  let first := _processDeployment (service := store_model) site_fs site_client
                 (boot stale_store) in
  let w := run_loop (platform := posix) 32 (snd (fst first)) (snd first) in
  let second := _processDeployment (service := store_model) site_fs
                  site_client (boot (store w)) in
  store (run_loop (platform := posix) 32 (snd (fst second)) (snd second))
  = store w.
Proof.
  intros first w second.
  apply (redeployment_changes_nothing (platform := posix) site_config site_fs
           stale_store site_client eq_refl site_keys_distinct w).
  - apply run_loop_is_run.
  - vm_compute; reflexivity.
  - apply run_loop_is_run.
  - vm_compute. reflexivity.
Defined.

Lemma stale_flag_fails_instead_of_creating_witness :
  exists this' w',
    reconcile (service := store_model) reused_client (boot ∅)
    = (Rejected no_such_bucket, this', w')
    /\ store w' = ∅
    /\ sent (events w') = [ListBuckets; ListObjects "my-bucket"].
Proof.
  apply (stale_flag_fails_instead_of_creating reused_client ∅).
  - reflexivity.
  - reflexivity.
Defined.
